(** * gateway-read-test-lambda: CAR inspection and the fetch-readiness policy

    A shallow embedding of [src/car.js] and [src/index.js].

    The repository's own code is embedded function by function, under the
    names it has in the source.  What it imports from npm packages
    ([@ipld/car], [@ipld/dag-pb], [@ipld/dag-cbor], [multiformats]) is not
    part of the repository: it enters through the record [Library], and
    every theorem holds for every value of that record.

    The numbers of the program hold integers; they are modelled as [Z].
    Where the program adds sizes read from an archive ([cumulativeSize]),
    the sum is rounded as a double rounds it ([jsAdd]); the byte counts the
    store reports are added exactly, their sums being far below 2^53. *)

From Stdlib Require Import ZArith List Lia Bool.
From Stdlib Require Import Strings.Byte Strings.Ascii.
From stdpp Require Import base option list strings gmap.

Local Open Scope Z_scope.

(** ** Data model *)

(** A [Uint8Array]. *)
Definition bytes : Type := list byte.

#[global] Instance byte_eq_dec : EqDecision byte.
Proof.
  intros a b. destruct (Byte.eqb a b) eqn:E.
  - left. apply Byte.byte_dec_bl. exact E.
  - right. intros ->. rewrite (Byte.byte_dec_lb eq_refl) in E. discriminate E.
Defined.

(** [bytes.byteLength] *)
Definition byteLength (b : bytes) : Z := Z.of_nat (length b).

(** A content identifier ([multiformats] [CID]): version, codec tag and the
    bytes of the multihash. *)
Record CID : Type := mkCID {
  version : Z;
  code : Z;
  multihash : bytes
}.

#[global] Instance CID_eq_dec : EqDecision CID.
Proof. solve_decision. Defined.

(** [a.equals(b)]: same codec, same version, same multihash bytes. *)
Definition equals (a b : CID) : bool :=
  bool_decide (code a = code b) && bool_decide (version a = version b)
  && bool_decide (multihash a = multihash b).

(** What the CAR reader yields: [{ cid, bytes }]. *)
Record Block : Type := mkBlock {
  cid : CID;
  block_bytes : bytes
}.

(** A dag-pb link and node ([PBLink], [PBNode] of [@ipld/dag-pb]). *)
Record PBLink : Type := mkPBLink {
  Hash : CID;
  Name : option string;
  Tsize : option Z
}.

Record PBNode : Type := mkPBNode {
  Data : option bytes;
  Links : list PBLink
}.

(** The value a decoder returns.  A raw block decodes to its bytes, a
    dag-pb block to a [PBNode].  Of a decoded dag-cbor value the program
    only ever asks for the links, so it is kept as the identifiers embedded
    in it, in the order [links()] meets them. *)
Inductive Value : Type :=
| VBytes (b : bytes)
| VNode (n : PBNode)
| VData (embedded : list CID).

(** The errors a run can end with.  The first six are the [throw]
    statements of the repository; [TypeError] is the engine's when a
    property of [undefined] is read, [RangeError] its answer to an
    exhausted call stack; the others are thrown by the collaborators. *)
Inductive Error : Type :=
| MissingRoots
| TooManyRoots
| BlockTooBig (blockSize : Z)
| EmptyCAR
| MissingRootBlock
| FailedToFetch
| TypeError
| RangeError
| InvalidCAR
| DecodeError (codec : Z)
| S3Error
| NetworkError.

(** ** Exceptions: the outcome of a call *)

Inductive Outcome (A : Type) : Type :=
| Ok (a : A)
| Throw (e : Error).
Arguments Ok {A} a.
Arguments Throw {A} e.

#[global] Instance Outcome_ret : MRet Outcome := fun A a => Ok a.
#[global] Instance Outcome_bind : MBind Outcome := fun A B f m =>
  match m with
  | Ok a => f a
  | Throw e => Throw e
  end.
#[global] Instance Outcome_fmap : FMap Outcome := fun A B f m =>
  match m with
  | Ok a => Ok (f a)
  | Throw e => Throw e
  end.

(** A library call that either returns or throws [e]. *)
Definition orThrow {A : Type} (e : Error) (r : option A) : Outcome A :=
  match r with
  | Some a => Ok a
  | None => Throw e
  end.

(** ** The imported packages *)

(** What iterating a [CarBlockIterator] produces: the roots of the header,
    the blocks read in order, and whether the reader throws after them (a
    truncated or malformed archive). *)
Record CarBlockIterator : Type := mkIterator {
  getRoots : list CID;
  yields : list Block;
  breaks : bool
}.

(** The three imported functions that read bytes; [None] stands for a
    thrown error. *)
Record Library : Type := mkLibrary {
  fromBytes : bytes -> option CarBlockIterator;
  pb_decode : bytes -> option PBNode;
  cbor_decode : bytes -> option (list CID)
}.

(** The multicodec table's tags of the three codecs. *)
Definition pb_code : Z := 0x70.
Definition raw_code : Z := 0x55.
Definition cbor_code : Z := 0x71.

(** A codec module: [{ code, decode }]. *)
Record Decoder : Type := mkDecoder {
  decoder_code : Z;
  decode : bytes -> Outcome Value
}.

(** [Block.links()]: the identifiers inside a decoded value.  For a dag-pb
    node these are the [Hash] fields of its links, in order; bytes hold
    none. *)
Definition links (v : Value) : list CID :=
  match v with
  | VBytes _ => []
  | VNode n => map Hash (Links n)
  | VData embedded => embedded
  end.

(** ** Numbers *)

(** The double nearest to an integer, ties to the even significand: an
    integer of magnitude below 2^53 is a double; of a larger one the 53
    leading bits are kept and the rest is rounded off.  (No size of an
    archive comes near 2^1024, where a double overflows.) *)
Definition toDouble (x : Z) : Z :=
  let a := Z.abs x in
  if a <? 2 ^ 53 then x
  else
    let e := Z.log2 a - 52 in
    let q := a / 2 ^ e in
    let rest := a mod 2 ^ e in
    let half := 2 ^ (e - 1) in
    let q' := if rest <? half then q
              else if half <? rest then q + 1
              else if Z.even q then q else q + 1 in
    Z.sgn x * (q' * 2 ^ e).

(** [a + b] on two numbers that hold integers. *)
Definition jsAdd (a b : Z) : Z := toDouble (a + b).

(** ** car.js *)

Module Car.
Section WithLibrary.

Variable lib : Library.

Definition pb : Decoder :=
  mkDecoder pb_code (fun b => VNode <$> orThrow (DecodeError pb_code) (pb_decode lib b)).
Definition raw : Decoder :=
  mkDecoder raw_code (fun b => Ok (VBytes b)).
Definition cbor : Decoder :=
  mkDecoder cbor_code (fun b => VData <$> orThrow (DecodeError cbor_code) (cbor_decode lib b)).

(** [const MAX_BLOCK_SIZE = 1 << 20] *)
Definition MAX_BLOCK_SIZE : Z := Z.shiftl 1 20.

(** [const decoders = [pb, raw, cbor]] *)
Definition decoders : list Decoder := [pb; raw; cbor].

(** [decoders.find((d) => d.code === c)] *)
Definition findDecoder (c : Z) : option Decoder :=
  find (fun d => bool_decide (decoder_code d = c)) decoders.

(** [carStat]: the header must declare exactly one root.  The last branch
    is [roots[0]] of a list the two tests have shown to hold one root; on
    an empty list it is never reached. *)
Definition carStat (carBytes : bytes) : Outcome (CID * CarBlockIterator) :=
  blocksIterator ← orThrow InvalidCAR (fromBytes lib carBytes);
  let roots := getRoots blocksIterator in
  if bool_decide (length roots = 0%nat) then Throw MissingRoots
  else if bool_decide (1 < length roots)%nat then Throw TooManyRoots
  else match roots with
       | rootCid :: _ => Ok (rootCid, blocksIterator)
       | [] => Throw TypeError
       end.

(** The [for await] loop of [inspectCarBlocks] over the blocks read so
    far: the state is [(rawRootBlock, blocks)]. *)
Fixpoint readBlocks (rootCid : CID) (pending : list Block)
    (rawRootBlock : option Block) (blocks : list Block)
    : Outcome (option Block * list Block) :=
  match pending with
  | [] => Ok (rawRootBlock, blocks)
  | block :: pending' =>
      let blockSize := byteLength (block_bytes block) in
      if bool_decide (blockSize > MAX_BLOCK_SIZE) then Throw (BlockTooBig blockSize)
      else
        let rawRootBlock' :=
          match rawRootBlock with
          | None => if equals (cid block) rootCid then Some block else None
          | Some _ => rawRootBlock
          end in
        readBlocks rootCid pending' rawRootBlock' (blocks ++ [block])
  end.

(** The whole loop: the blocks the reader yields, then its failure if it
    has one. *)
Definition forAwaitBlocks (rootCid : CID) (blocksIterator : CarBlockIterator)
    : Outcome (option Block * list Block) :=
  st ← readBlocks rootCid (yields blocksIterator) None [];
  if breaks blocksIterator then Throw InvalidCAR else Ok st.

(** [blocks.find((b) => b.cid.equals(link))] *)
Definition findBlock (blocks : list Block) (link : CID) : option Block :=
  find (fun b => equals (cid b) link) blocks.

(** The [for (const link of bLinks)] loop of [iterateDag]; [recur] is the
    recursive call. *)
Fixpoint forLinks (recur : Block -> Outcome bool) (blocks : list Block)
    (bLinks : list CID) : Outcome bool :=
  match bLinks with
  | [] => Ok true
  | link :: rest =>
      match findBlock blocks link with
      | None => Ok false
      | Some existingBlock =>
          complete ← recur existingBlock;
          if negb complete then Ok false else forLinks recur blocks rest
      end
  end.

(** [iterateDag].  The recursion follows the links of the archive, so its
    depth is bounded by the call stack: [stack] frames are available, and
    a call with none left throws [RangeError]. *)
Fixpoint iterateDag (stack : nat) (rawBlock : Block) (blocks : list Block)
    : Outcome bool :=
  match stack with
  | O => Throw RangeError
  | S stack' =>
      match findDecoder (code (cid rawBlock)) with
      | None => Throw TypeError
      | Some decoder =>
          value ← decode decoder (block_bytes rawBlock);
          forLinks (fun b => iterateDag stack' b blocks) blocks (links value)
      end
  end.

(** [curr.Tsize || 0] *)
Definition TsizeOr0 (curr : PBLink) : Z :=
  match Tsize curr with
  | Some t => if bool_decide (t = 0) then 0 else t
  | None => 0
  end.

(** [cumulativeSize] *)
Definition cumulativeSize (pbNodeBytes : bytes) (pbNode : PBNode) : Z :=
  jsAdd (byteLength pbNodeBytes)
    (fold_left (fun acc curr => jsAdd acc (TsizeOr0 curr)) (Links pbNode) 0).

(** What [inspectCarBlocks] returns: [{ rootCid, structure, size }]. *)
Record Inspection : Type := mkInspection {
  rootCid : CID;
  structure : option string;
  size : option Z
}.

(** [inspectCarBlocks] *)
Definition inspectCarBlocks (stack : nat) (rootCid : CID)
    (blocksIterator : CarBlockIterator) : Outcome Inspection :=
  '(rawRootBlock, blocks) ← forAwaitBlocks rootCid blocksIterator;
  if bool_decide (length blocks = 0%nat) then Throw EmptyCAR
  else match rawRootBlock with
  | None => Throw MissingRootBlock
  | Some rawRootBlock =>
      match findDecoder (code rootCid) with
      | None => Ok (mkInspection rootCid None None)
      | Some decoder =>
          value ← decode decoder (block_bytes rawRootBlock);
          size ← (if bool_decide (code (cid rawRootBlock) = decoder_code pb)
                  then match value with
                       | VNode pbNode =>
                           Ok (Some (cumulativeSize (block_bytes rawRootBlock) pbNode))
                       | _ => Throw TypeError
                       end
                  else Ok None);
          if bool_decide (length blocks = 1%nat)
             && bool_decide (code rootCid = decoder_code raw)
          then Ok (mkInspection rootCid (Some "Complete"%string) size)
          else
            isComplete ← iterateDag stack rawRootBlock blocks;
            if (isComplete : bool)
            then Ok (mkInspection rootCid (Some "Complete"%string) size)
            else Ok (mkInspection rootCid (Some "Partial"%string) size)
      end
  end.

End WithLibrary.
End Car.

(** ** index.js *)

(** The collaborators of the handler.  Each call of a collaborator is
    recorded, so that a run shows which requests were issued.  The calls of
    the logger are left out: they return nothing the handler uses.  The
    gateway URL is built from the root alone ([getIpfsGatewayUrlForCid] of
    [config.js]), so a fetch is recorded with the root it asks for. *)
Inductive Call : Type :=
| GetObject
| ListObjectsV2
| Fetch (root : CID).

#[global] Instance Call_eq_dec : EqDecision Call.
Proof. solve_decision. Defined.

(** A run: the calls made, in order, and how it ended. *)
Record IO (A : Type) : Type := mkIO {
  calls : list Call;
  outcome : Outcome A
}.
Arguments mkIO {A} calls outcome.
Arguments calls {A} _.
Arguments outcome {A} _.

#[global] Instance IO_ret : MRet IO := fun A a => mkIO [] (Ok a).
#[global] Instance IO_bind : MBind IO := fun A B f m =>
  match outcome m with
  | Ok a => mkIO (calls m ++ calls (f a)) (outcome (f a))
  | Throw e => mkIO (calls m) (Throw e)
  end.

(** A request to a collaborator and the answer it gives. *)
Definition request {A : Type} (c : Call) (answer : Outcome A) : IO A :=
  mkIO [c] answer.

(** A computation that calls no collaborator. *)
Definition local {A : Type} (o : Outcome A) : IO A := mkIO [] o.

(** An entry of [s3ListObjects.Contents]. *)
Record ListedObject : Type := mkListed {
  Key : string;
  Size : Z
}.

(** The gateway's [response]. *)
Record Response : Type := mkResponse {
  ok : bool
}.

(** What the object store and the gateway answer during one invocation:
    the object named by the event with its metadata, the listing of the
    object's directory, and the response to a GET of the gateway URL of a
    root (a rejected promise, the 25 s abort included, is a [Throw]). *)
Record World : Type := mkWorld {
  s3_getObject : Outcome (bytes * gmap string string);
  s3_listObjectsV2 : Outcome (list ListedObject);
  gateway : CID -> Outcome Response
}.

(** [a || b] on values that are a string or [undefined]. *)
Definition orElse (a b : option string) : option string :=
  match a with
  | Some s => if bool_decide (s = ""%string) then b else a
  | None => b
  end.

(** [!size] on a number or [undefined]. *)
Definition not_ (size : option Z) : bool :=
  match size with
  | Some n => bool_decide (n = 0)
  | None => true
  end.

(** [size > bound]; [undefined > bound] is false. *)
Definition gt (size : option Z) (bound : Z) : bool :=
  match size with
  | Some n => bool_decide (n > bound)
  | None => false
  end.

Module Index.
Section WithLibrary.

Variable lib : Library.

(** [const MAX_SIZE_TO_ATTEMPT = 100 * 1024 * 1024] *)
Definition MAX_SIZE_TO_ATTEMPT : Z := 100 * 1024 * 1024.

(** What [main] returns: [{ rootCid, structure }] or
    [{ rootCid, structure, response }]. *)
Record Result : Type := mkResult {
  rootCid : CID;
  structure : option string;
  response : option Response
}.

(** [inspectCar]; its [catch] logs and rethrows. *)
Definition inspectCar (stack : nat) (body : bytes) (metadata : gmap string string)
    : Outcome (CID * option string * option Z) :=
  '(rootCid, blocksIterator) ← Car.carStat lib body;
  inspection ← Car.inspectCarBlocks lib stack rootCid blocksIterator;
  let structure := orElse (Car.structure inspection) (metadata !! "structure"%string) in
  let size := Car.size inspection in
  Ok (rootCid, structure, size).

(** [getS3Object] *)
Definition getS3Object (w : World) : IO (bytes * gmap string string) :=
  request GetObject (s3_getObject w).

(** [getDirectoryStat]: the sum of the listed sizes. *)
Definition getDirectoryStat (w : World) : IO Z :=
  s3ListObjects ← request ListObjectsV2 (s3_listObjectsV2 w);
  mret (fold_left (fun acc obj => acc + Size obj) s3ListObjects 0).

(** [main], from the comment [// Fetch from gateway] to its end. *)
Definition fetchFromGateway (w : World) (rootCid : CID) (structure : option string)
    : IO Result :=
  response ← request (Fetch rootCid) (gateway w rootCid);
  if ok response
  then mret (mkResult rootCid structure (Some response))
  else local (Throw FailedToFetch).

(** [main], from the test [structure !== 'Complete'] to its end: the
    policy that decides between returning without a response and fetching
    from the gateway. *)
Definition decide (w : World) (rootCid : CID) (structure : option string)
    (size : option Z) : IO Result :=
  if negb (bool_decide (structure = Some "Complete"%string)) then
    if not_ size then mret (mkResult rootCid structure None)
    else if gt size MAX_SIZE_TO_ATTEMPT then mret (mkResult rootCid structure None)
    else
      accumSize ← getDirectoryStat w;
      if gt size accumSize then mret (mkResult rootCid structure None)
      else fetchFromGateway w rootCid structure
  else fetchFromGateway w rootCid structure.

(** [main] *)
Definition main (w : World) (stack : nat) : IO Result :=
  '(body, metadata) ← getS3Object w;
  '(rootCid, structure, size) ← local (inspectCar stack body metadata);
  decide w rootCid structure size.

End WithLibrary.
End Index.

(** ** Reading a run *)

(** The verdict of the policy, as a run shows it: [Attempt] when a fetch
    from the gateway was issued, [Defer] when the handler returned without
    a response and without issuing one. *)
Inductive FetchDecision : Type :=
| Attempt
| Defer.

Definition isFetch (c : Call) : bool :=
  match c with
  | Fetch _ => true
  | _ => false
  end.

Definition decision (run : IO Index.Result) : option FetchDecision :=
  if existsb isFetch (calls run) then Some Attempt
  else match outcome run with
       | Ok r => match Index.response r with
                 | None => Some Defer
                 | Some _ => None
                 end
       | Throw _ => None
       end.

(** Whether the run asked the store for the directory listing. *)
Definition listed (run : IO Index.Result) : bool :=
  bool_decide (ListObjectsV2 ∈ calls run).

(** ** Example archives *)

(** Small archives used to run the definitions.  The library they come
    with is a finite table: each entry pairs the bytes of a CARv1 archive,
    or of a dag-pb node, with what it encodes; any other input is refused.
    Identifiers are CIDv1 with the identity multihash, which keeps the
    encodings short enough to read. *)
Module Fixtures.

Definition hex (l : list N) : bytes :=
  map (fun n => default x00 (Byte.of_N n)) l.

Definition table {A : Type} (t : list (bytes * A)) (b : bytes) : option A :=
  snd <$> find (fun e => bool_decide (fst e = b)) t.

(** The file of the repository's tests, [Uint8Array([21, 31])], as a raw
    leaf. *)
Definition leafData : bytes := hex [0x15; 0x1f]%N.
Definition leafCid : CID := mkCID 1 raw_code (hex [0x00; 0x02; 0x15; 0x1f]%N).
Definition leaf : Block := mkBlock leafCid leafData.

(** A dag-json leaf, [{}]: codec 0x0129, none of the three decoders. *)
Definition jsonData : bytes := hex [0x7b; 0x7d]%N.
Definition jsonCid : CID := mkCID 1 0x0129 (hex [0x00; 0x02; 0x7b; 0x7d]%N).
Definition json : Block := mkBlock jsonCid jsonData.

(** A dag-pb node with one link, to [leaf], declaring [Tsize] 2:
    [12 0a (0a 06 <leafCid> 18 02)]. *)
Definition dirData : bytes :=
  hex [0x12; 0x0a; 0x0a; 0x06; 0x01; 0x55; 0x00; 0x02; 0x15; 0x1f; 0x18; 0x02]%N.
Definition dirNode : PBNode := mkPBNode None [mkPBLink leafCid None (Some 2)].
Definition dirCid : CID := mkCID 1 pb_code (hex [0x00; 0x0c]%N ++ dirData).
Definition dir : Block := mkBlock dirCid dirData.

(** A dag-pb node with one link, to [json]:
    [12 0b (0a 07 <jsonCid> 18 02)]. *)
Definition jdirData : bytes :=
  hex [0x12; 0x0b; 0x0a; 0x07; 0x01; 0xa9; 0x02; 0x00; 0x02; 0x7b; 0x7d;
       0x18; 0x02]%N.
Definition jdirNode : PBNode := mkPBNode None [mkPBLink jsonCid None (Some 2)].
Definition jdirCid : CID := mkCID 1 pb_code (hex [0x00; 0x0d]%N ++ jdirData).
Definition jdir : Block := mkBlock jdirCid jdirData.

(** The dag-pb node without data or links: its encoding is empty. *)
Definition emptyNode : PBNode := mkPBNode None [].
Definition emptyCid : CID := mkCID 1 pb_code (hex [0x00; 0x00]%N).
Definition empty : Block := mkBlock emptyCid [].

(** The header [{roots: [leafCid], version: 1}] and the one block. *)
Definition rawCar : bytes :=
  hex [0x1b; 0xa2; 0x65; 0x72; 0x6f; 0x6f; 0x74; 0x73; 0x81; 0xd8; 0x2a;
       0x47; 0x00; 0x01; 0x55; 0x00; 0x02; 0x15; 0x1f; 0x67; 0x76; 0x65;
       0x72; 0x73; 0x69; 0x6f; 0x6e; 0x01; 0x08; 0x01; 0x55; 0x00; 0x02;
       0x15; 0x1f; 0x15; 0x1f]%N.

(** The same with [roots: []]. *)
Definition noRootsCar : bytes :=
  hex [0x11; 0xa2; 0x65; 0x72; 0x6f; 0x6f; 0x74; 0x73; 0x80; 0x67; 0x76;
       0x65; 0x72; 0x73; 0x69; 0x6f; 0x6e; 0x01; 0x08; 0x01; 0x55; 0x00;
       0x02; 0x15; 0x1f; 0x15; 0x1f]%N.

(** The same with [roots: [leafCid, dirCid]]. *)
Definition twoRootsCar : bytes :=
  hex [0x2f; 0xa2; 0x65; 0x72; 0x6f; 0x6f; 0x74; 0x73; 0x82; 0xd8; 0x2a;
       0x47; 0x00; 0x01; 0x55; 0x00; 0x02; 0x15; 0x1f; 0xd8; 0x2a; 0x51;
       0x00; 0x01; 0x70; 0x00; 0x0c; 0x12; 0x0a; 0x0a; 0x06; 0x01; 0x55;
       0x00; 0x02; 0x15; 0x1f; 0x18; 0x02; 0x67; 0x76; 0x65; 0x72; 0x73;
       0x69; 0x6f; 0x6e; 0x01; 0x08; 0x01; 0x55; 0x00; 0x02; 0x15; 0x1f;
       0x15; 0x1f]%N.

(** Root [jsonCid], one block: the dag-json leaf. *)
Definition jsonRootCar : bytes :=
  hex [0x1c; 0xa2; 0x65; 0x72; 0x6f; 0x6f; 0x74; 0x73; 0x81; 0xd8; 0x2a;
       0x48; 0x00; 0x01; 0xa9; 0x02; 0x00; 0x02; 0x7b; 0x7d; 0x67; 0x76;
       0x65; 0x72; 0x73; 0x69; 0x6f; 0x6e; 0x01; 0x09; 0x01; 0xa9; 0x02;
       0x00; 0x02; 0x7b; 0x7d; 0x7b; 0x7d]%N.

(** Root [dirCid], one block: the directory node without its leaf. *)
Definition dirPartCar : bytes :=
  hex [0x25; 0xa2; 0x65; 0x72; 0x6f; 0x6f; 0x74; 0x73; 0x81; 0xd8; 0x2a;
       0x51; 0x00; 0x01; 0x70; 0x00; 0x0c; 0x12; 0x0a; 0x0a; 0x06; 0x01;
       0x55; 0x00; 0x02; 0x15; 0x1f; 0x18; 0x02; 0x67; 0x76; 0x65; 0x72;
       0x73; 0x69; 0x6f; 0x6e; 0x01; 0x1c; 0x01; 0x70; 0x00; 0x0c; 0x12;
       0x0a; 0x0a; 0x06; 0x01; 0x55; 0x00; 0x02; 0x15; 0x1f; 0x18; 0x02;
       0x12; 0x0a; 0x0a; 0x06; 0x01; 0x55; 0x00; 0x02; 0x15; 0x1f; 0x18;
       0x02]%N.

(** Root [jdirCid], two blocks: the node and the dag-json leaf it links
    to. *)
Definition jdirCar : bytes :=
  hex [0x26; 0xa2; 0x65; 0x72; 0x6f; 0x6f; 0x74; 0x73; 0x81; 0xd8; 0x2a;
       0x52; 0x00; 0x01; 0x70; 0x00; 0x0d; 0x12; 0x0b; 0x0a; 0x07; 0x01;
       0xa9; 0x02; 0x00; 0x02; 0x7b; 0x7d; 0x18; 0x02; 0x67; 0x76; 0x65;
       0x72; 0x73; 0x69; 0x6f; 0x6e; 0x01; 0x1e; 0x01; 0x70; 0x00; 0x0d;
       0x12; 0x0b; 0x0a; 0x07; 0x01; 0xa9; 0x02; 0x00; 0x02; 0x7b; 0x7d;
       0x18; 0x02; 0x12; 0x0b; 0x0a; 0x07; 0x01; 0xa9; 0x02; 0x00; 0x02;
       0x7b; 0x7d; 0x18; 0x02; 0x09; 0x01; 0xa9; 0x02; 0x00; 0x02; 0x7b;
       0x7d; 0x7b; 0x7d]%N.

(** Two blocks of zero bytes: one of exactly 1 MiB, one a byte longer. *)
Definition atLimit : Block := mkBlock leafCid (replicate (Z.to_nat 1048576) x00).
Definition oversized : Block := mkBlock leafCid (replicate (Z.to_nat 1048577) x00).

Definition rawIterator : CarBlockIterator := mkIterator [leafCid] [leaf] false.
Definition noRootsIterator : CarBlockIterator := mkIterator [] [leaf] false.
Definition twoRootsIterator : CarBlockIterator :=
  mkIterator [leafCid; dirCid] [leaf] false.
Definition jsonRootIterator : CarBlockIterator := mkIterator [jsonCid] [json] false.
Definition dirPartIterator : CarBlockIterator := mkIterator [dirCid] [dir] false.
Definition dirIterator : CarBlockIterator := mkIterator [dirCid] [dir; leaf] false.
Definition jdirIterator : CarBlockIterator := mkIterator [jdirCid] [jdir; json] false.
Definition emptyIterator : CarBlockIterator := mkIterator [emptyCid] [empty] false.

Definition lib : Library :=
  mkLibrary
    (table [(rawCar, rawIterator); (noRootsCar, noRootsIterator);
            (twoRootsCar, twoRootsIterator); (jsonRootCar, jsonRootIterator);
            (dirPartCar, dirPartIterator); (jdirCar, jdirIterator)])
    (table [([], emptyNode); (dirData, dirNode); (jdirData, jdirNode)])
    (table []).

(** A store holding [body] under the event's key with metadata [metadata],
    listing [contents] in its directory, and a gateway that answers 200. *)
Definition world (body : bytes) (metadata : gmap string string)
    (contents : list ListedObject) : World :=
  mkWorld (Ok (body, metadata)) (Ok contents) (fun _ => Ok (mkResponse true)).

End Fixtures.

(** ** The graph of an archive *)

(** The vocabulary in which the completeness of a DAG is stated: the links
    of a block, the identifiers reachable from one, and the blocks from
    which the walk meets no block it cannot read and no cycle. *)
Module Dag.
Section WithArchive.

Variable lib : Library.
Variable blocks : list Block.

(** The links of a block: defined when its codec is one of the three and
    its bytes decode. *)
Definition blockLinks (b : Block) : option (list CID) :=
  match Car.findDecoder lib (code (cid b)) with
  | Some decoder =>
      match decode decoder (block_bytes b) with
      | Ok value => Some (links value)
      | Throw _ => None
      end
  | None => None
  end.

(** An identifier has a block in the archive. *)
Definition present (c : CID) : Prop := is_Some (Car.findBlock blocks c).

(** [Reach c d]: [d] is [c], or is reached from [c] by following the links
    of blocks of the archive. *)
Inductive Reach : CID -> CID -> Prop :=
| reach_here (c : CID) : Reach c c
| reach_link (c : CID) (b : Block) (ls : list CID) (l d : CID) :
    Car.findBlock blocks c = Some b ->
    blockLinks b = Some ls ->
    l ∈ ls ->
    Reach l d ->
    Reach c d.

(** [Walkable b]: the links of [b] can be read, and so can those of every
    block of the archive a link of [b] leads to, all the way down: below
    [b] every block has one of the three codecs and decodes, and the links
    never lead back (an inductive predicate has no infinite descent). *)
Inductive Walkable : Block -> Prop :=
| walkable (b : Block) (ls : list CID) :
    blockLinks b = Some ls ->
    (forall (l : CID) (b' : Block),
        l ∈ ls -> Car.findBlock blocks l = Some b' -> Walkable b') ->
    Walkable b.

End WithArchive.
End Dag.

(** The three codecs the program can decode. *)
Definition supported (c : Z) : Prop :=
  c = pb_code \/ c = raw_code \/ c = cbor_code.

(** A block within the size limit. *)
Definition small (b : Block) : Prop :=
  byteLength (block_bytes b) <= Car.MAX_BLOCK_SIZE.

(** The errors the walk can end with: its own, and those of the decoders. *)
Definition walkError (e : Error) : Prop :=
  e = RangeError \/ e = TypeError \/ exists c, e = DecodeError c.

(** The size a link declares for the subtree it points to, 0 when it
    declares none. *)
Definition declaredSize (l : PBLink) : Z := default 0 (Tsize l).

(** The sum of a list of sizes. *)
Definition total (sizes : list Z) : Z := foldr Z.add 0 sizes.

(** ** The directory of a key (index.js, getDirectoryStat) *)

(** [getDirectoryStat] lists the objects under
    [key.replace(/[^\/]*$/, '').slice(0, -1)].  The pattern, tried from the
    left, first matches where no slash follows: just after the last slash
    of the key, or at its start when it has none; from there it takes the
    rest of the key. *)
Module Keys.

(** Whether a slash occurs in the string. *)
Fixpoint hasSlash (s : string) : bool :=
  match s with
  | EmptyString => false
  | String c rest => Ascii.eqb c "/"%char || hasSlash rest
  end.

(** [key.replace(/[^\/]*$/, '')] *)
Fixpoint removeLastSegment (key : string) : string :=
  match key with
  | EmptyString => EmptyString
  | String c rest =>
      if Ascii.eqb c "/"%char || hasSlash rest
      then String c (removeLastSegment rest)
      else EmptyString
  end.

(** [s.slice(0, -1)]: all but the last character; nothing of the empty
    string. *)
Fixpoint dropLast (s : string) : string :=
  match s with
  | EmptyString => EmptyString
  | String c EmptyString => EmptyString
  | String c rest => String c (dropLast rest)
  end.

(** [const prefix = key.replace(/[^\/]*$/, '').slice(0, -1)] *)
Definition directoryPrefix (key : string) : string :=
  dropLast (removeLastSegment key).

End Keys.

(** ** config.js *)

Module Config.
Section WithEnvironment.

(** [process.env.GATEWAY] and [process.env.USE_IPFS_PATH]: a string, or
    [undefined] when the variable is not set. *)
Variable gateway : option string.
Variable useIpfsPath : option string.

(** [cid.toString()], [normalizeCid] of [utils.js] (it parses the string
    with the CID library, which throws on a string that is no CID), and
    [new URL(path, base).toString()] (the constructor throws on a base that
    is no URL). *)
Variable cidToString : CID -> string.
Variable normalizeCid : string -> Outcome string.
Variable newURL : string -> option string -> Outcome string.

(** A string or [undefined] as a condition: true for a string that is not
    empty. *)
Definition truthy (v : option string) : bool :=
  match v with
  | Some s => negb (bool_decide (s = ""%string))
  | None => false
  end.

(** A string or [undefined] inside a template literal. *)
Definition interpolate (v : option string) : string :=
  default "undefined"%string v.

(** [getIpfsGatewayUrlForCid] *)
Definition getIpfsGatewayUrlForCid (cid : CID) : Outcome string :=
  nCid ← normalizeCid (cidToString cid);
  if truthy useIpfsPath then
    ipfsUrl ← newURL "ipfs"%string gateway;
    Ok (ipfsUrl +:+ "/" +:+ nCid)%string
  else
    Ok ("https://" +:+ nCid +:+ "." +:+ interpolate gateway)%string.

End WithEnvironment.
End Config.

(** ** An archive with a cycle *)

(** The reader does not check that a block hashes to its identifier, so an
    archive can hold a dag-pb block that links to its own identifier:
    [12 26 (0a 24 <loopCid>)], under an identifier with a sha2-256
    multihash of zeros. *)
Module Loop.

Definition loopCid : CID :=
  mkCID 1 pb_code (Fixtures.hex [0x12; 0x20]%N ++ replicate 32 x00).
Definition loopData : bytes :=
  Fixtures.hex [0x12; 0x26; 0x0a; 0x24; 0x01; 0x70; 0x12; 0x20]%N
  ++ replicate 32 x00.
Definition loopNode : PBNode := mkPBNode None [mkPBLink loopCid None None].
Definition loop : Block := mkBlock loopCid loopData.
Definition loopIterator : CarBlockIterator := mkIterator [loopCid] [loop] false.

Definition lib : Library :=
  mkLibrary (fromBytes Fixtures.lib)
    (Fixtures.table [(loopData, loopNode)])
    (cbor_decode Fixtures.lib).

End Loop.

(** ** An archive with a large declared size, and the empty node *)

(** A dag-pb node of 19 bytes with one link, to [Fixtures.leaf], that
    declares the size 2^53: [12 11 (0a 06 <leafCid> 18 <varint 2^53>)]. *)
Module Big.

Definition bigData : bytes :=
  Fixtures.hex [0x12; 0x11; 0x0a; 0x06; 0x01; 0x55; 0x00; 0x02; 0x15; 0x1f;
                0x18; 0x80; 0x80; 0x80; 0x80; 0x80; 0x80; 0x80; 0x10]%N.
Definition bigNode : PBNode :=
  mkPBNode None [mkPBLink Fixtures.leafCid None (Some (2 ^ 53))].
Definition bigCid : CID :=
  mkCID 1 pb_code (Fixtures.hex [0x00; 0x13]%N ++ bigData).
Definition big : Block := mkBlock bigCid bigData.
Definition bigIterator : CarBlockIterator := mkIterator [bigCid] [big] false.

Definition lib : Library :=
  mkLibrary (fromBytes Fixtures.lib)
    (Fixtures.table [(bigData, bigNode)])
    (cbor_decode Fixtures.lib).

End Big.

(** The archive of one block, the dag-pb node without data or links:
    header [{roots: [emptyCid], version: 1}], then the identifier with no
    bytes after it. *)
Module Zero.

Definition emptyCar : bytes :=
  Fixtures.hex [0x19; 0xa2; 0x65; 0x72; 0x6f; 0x6f; 0x74; 0x73; 0x81; 0xd8;
                0x2a; 0x45; 0x00; 0x01; 0x70; 0x00; 0x00; 0x67; 0x76; 0x65;
                0x72; 0x73; 0x69; 0x6f; 0x6e; 0x01; 0x04; 0x01; 0x70; 0x00;
                0x00]%N.

Definition lib : Library :=
  mkLibrary (Fixtures.table [(emptyCar, Fixtures.emptyIterator)])
    (pb_decode Fixtures.lib)
    (cbor_decode Fixtures.lib).

End Zero.

(** ** The definitions at work *)

Example inspect_raw_file :
  Car.inspectCarBlocks Fixtures.lib 8 Fixtures.leafCid Fixtures.rawIterator
  = Ok (Car.mkInspection Fixtures.leafCid (Some "Complete"%string) None).
Proof. vm_compute. reflexivity. Qed.

Example inspect_complete_directory :
  Car.inspectCarBlocks Fixtures.lib 8 Fixtures.dirCid Fixtures.dirIterator
  = Ok (Car.mkInspection Fixtures.dirCid (Some "Complete"%string) (Some 14)).
Proof. vm_compute. reflexivity. Qed.

Example inspect_partial_directory :
  Car.inspectCarBlocks Fixtures.lib 8 Fixtures.dirCid Fixtures.dirPartIterator
  = Ok (Car.mkInspection Fixtures.dirCid (Some "Partial"%string) (Some 14)).
Proof. vm_compute. reflexivity. Qed.

(** The handler on the partial archive with an empty directory listing,
    and with a listing of two objects of 49 bytes. *)
Example main_partial_not_stored :
  Index.main Fixtures.lib (Fixtures.world Fixtures.dirPartCar ∅ []) 8
  = mkIO [GetObject; ListObjectsV2]
         (Ok (Index.mkResult Fixtures.dirCid (Some "Partial"%string) None)).
Proof. vm_compute. reflexivity. Qed.

Example main_partial_stored :
  Index.main Fixtures.lib
    (Fixtures.world Fixtures.dirPartCar ∅
       [mkListed "a.car" 49; mkListed "b.car" 49]) 8
  = mkIO [GetObject; ListObjectsV2; Fetch Fixtures.dirCid]
         (Ok (Index.mkResult Fixtures.dirCid (Some "Partial"%string)
                (Some (mkResponse true)))).
Proof. vm_compute. reflexivity. Qed.

(** ** Basic facts *)

Lemma equals_true (a b : CID) : equals a b = true <-> a = b.
Proof.
  unfold equals. rewrite !andb_true_iff, !bool_decide_eq_true.
  split.
  - intros [[Hc Hv] Hm]. destruct a, b; simpl in *; congruence.
  - intros ->. auto.
Qed.

Lemma findBlock_Some (blocks : list Block) (c : CID) (b : Block) :
  Car.findBlock blocks c = Some b -> cid b = c /\ b ∈ blocks.
Proof.
  unfold Car.findBlock. intros H.
  apply find_some in H as [Hin Heq].
  split; [now apply equals_true | now apply list_elem_of_In].
Qed.

Lemma findDecoder_supported (lib : Library) (c : Z) :
  (c = pb_code /\ Car.findDecoder lib c = Some (Car.pb lib))
  \/ (c = raw_code /\ Car.findDecoder lib c = Some Car.raw)
  \/ (c = cbor_code /\ Car.findDecoder lib c = Some (Car.cbor lib))
  \/ (~ supported c /\ Car.findDecoder lib c = None).
Proof.
  unfold Car.findDecoder, Car.decoders, supported; simpl.
  destruct (decide (c = pb_code)) as [->|Hpb]; [left; auto|].
  destruct (decide (c = raw_code)) as [->|Hraw]; [right; left; auto|].
  destruct (decide (c = cbor_code)) as [->|Hcbor]; [right; right; left; auto|].
  right; right; right. split; [intuition congruence|].
  rewrite !bool_decide_eq_false_2 by congruence. reflexivity.
Qed.

Lemma findDecoder_None (lib : Library) (c : Z) :
  Car.findDecoder lib c = None <-> ~ supported c.
Proof.
  destruct (findDecoder_supported lib c) as [[-> H]|[[-> H]|[[-> H]|[Hn H]]]];
    rewrite H; unfold supported; split; intros; try discriminate; auto;
    exfalso; auto.
Qed.

(** The loop over the blocks in closed form. *)
Lemma readBlocks_spec (rootCid : CID) (pending : list Block)
    (rawRootBlock : option Block) (blocks : list Block) :
  match Car.readBlocks rootCid pending rawRootBlock blocks with
  | Ok (rawRootBlock', blocks') =>
      Forall (fun b => byteLength (block_bytes b) <= Car.MAX_BLOCK_SIZE) pending
      /\ blocks' = blocks ++ pending
      /\ rawRootBlock' = match rawRootBlock with
                         | Some _ => rawRootBlock
                         | None => Car.findBlock pending rootCid
                         end
  | Throw e =>
      exists b, b ∈ pending
                /\ byteLength (block_bytes b) > Car.MAX_BLOCK_SIZE
                /\ e = BlockTooBig (byteLength (block_bytes b))
  end.
Proof.
  revert rawRootBlock blocks.
  induction pending as [|block pending IH]; intros rawRootBlock blocks; simpl.
  - rewrite app_nil_r. destruct rawRootBlock; auto.
  - case_bool_decide as Hbig.
    + exists block. split; [left | auto].
    + specialize (IH (match rawRootBlock with
                      | Some _ => rawRootBlock
                      | None => if equals (cid block) rootCid then Some block else None
                      end) (blocks ++ [block])).
      destruct (Car.readBlocks _ _ _ _) as [[r' bl']|e].
      * destruct IH as (Hall & -> & ->). split; [|split].
        -- constructor; [lia | exact Hall].
        -- now rewrite <- app_assoc.
        -- destruct rawRootBlock; [reflexivity|].
           unfold Car.findBlock; simpl.
           destruct (equals (cid block) rootCid); reflexivity.
      * destruct IH as (b & Hin & Hb & ->). exists b.
        split; [now right | auto].
Qed.

Lemma forAwaitBlocks_Ok (rootCid : CID) (it : CarBlockIterator) :
  Forall small (yields it) -> breaks it = false ->
  Car.forAwaitBlocks rootCid it
  = Ok (Car.findBlock (yields it) rootCid, yields it).
Proof.
  intros Hall Hbr. unfold Car.forAwaitBlocks.
  pose proof (readBlocks_spec rootCid (yields it) None []) as H.
  destruct (Car.readBlocks _ _ _ _) as [[r bl]|e]; simpl.
  - destruct H as (_ & -> & ->). rewrite Hbr. reflexivity.
  - destruct H as (b & Hin & Hbig & _).
    rewrite Forall_forall in Hall. specialize (Hall b Hin).
    unfold small in Hall. lia.
Qed.

Lemma forAwaitBlocks_inv (rootCid : CID) (it : CarBlockIterator)
    (st : option Block * list Block) :
  Car.forAwaitBlocks rootCid it = Ok st ->
  Forall small (yields it) /\ breaks it = false
  /\ st = (Car.findBlock (yields it) rootCid, yields it).
Proof.
  unfold Car.forAwaitBlocks.
  pose proof (readBlocks_spec rootCid (yields it) None []) as H.
  destruct (Car.readBlocks _ _ _ _) as [[r bl]|e]; simpl; [|discriminate].
  destruct H as (Hall & -> & ->).
  destruct (breaks it); [discriminate|].
  intros [= <-]. auto.
Qed.

Lemma forAwaitBlocks_Throw (rootCid : CID) (it : CarBlockIterator) (e : Error) :
  Car.forAwaitBlocks rootCid it = Throw e ->
  (e = InvalidCAR /\ Forall small (yields it))
  \/ exists b, b ∈ yields it
               /\ byteLength (block_bytes b) > Car.MAX_BLOCK_SIZE
               /\ e = BlockTooBig (byteLength (block_bytes b)).
Proof.
  unfold Car.forAwaitBlocks.
  pose proof (readBlocks_spec rootCid (yields it) None []) as H.
  destruct (Car.readBlocks _ _ _ _) as [[r bl]|e']; simpl.
  - destruct (breaks it); [|discriminate].
    intros [= <-]. left. split; [reflexivity | apply H].
  - intros [= <-]. right. exact H.
Qed.

Lemma decode_Throw (lib : Library) (c : Z) (d : Decoder) (b : bytes) (e : Error) :
  Car.findDecoder lib c = Some d -> decode d b = Throw e ->
  exists c', e = DecodeError c'.
Proof.
  intros Hd He.
  destruct (findDecoder_supported lib c) as [[_ H]|[[_ H]|[[_ H]|[_ H]]]];
    rewrite H in Hd; try discriminate; injection Hd as <-; simpl in He.
  - destruct (pb_decode lib b); simpl in He; [discriminate|].
    injection He as <-. eauto.
  - discriminate.
  - destruct (cbor_decode lib b); simpl in He; [discriminate|].
    injection He as <-. eauto.
Qed.

Lemma forLinks_Throw (recur : Block -> Outcome bool) (blocks : list Block)
    (ls : list CID) (P : Error -> Prop) (e : Error) :
  (forall b e', recur b = Throw e' -> P e') ->
  Car.forLinks recur blocks ls = Throw e -> P e.
Proof.
  intros Hrec. induction ls as [|l ls IH]; simpl; [discriminate|].
  destruct (Car.findBlock blocks l) as [b|]; [|discriminate].
  destruct (recur b) as [[|]|e'] eqn:Hb; simpl.
  - exact IH.
  - discriminate.
  - intros [= <-]. eauto.
Qed.

Lemma iterateDag_Throw (lib : Library) (stack : nat) (b : Block)
    (blocks : list Block) (e : Error) :
  Car.iterateDag lib stack b blocks = Throw e -> walkError e.
Proof.
  revert b e. induction stack as [|stack IH]; intros b e; simpl.
  - intros [= <-]. left. reflexivity.
  - destruct (Car.findDecoder lib (code (cid b))) as [d|] eqn:Hd.
    + destruct (decode d (block_bytes b)) as [v|e'] eqn:Hv; simpl.
      * apply forLinks_Throw. intros b' e'. apply IH.
      * intros [= <-]. right; right. eapply decode_Throw; eauto.
    + intros [= <-]. right; left. reflexivity.
Qed.

Lemma inspectCarBlocks_Throw (lib : Library) (stack : nat) (rootCid : CID)
    (it : CarBlockIterator) (e : Error) :
  Car.inspectCarBlocks lib stack rootCid it = Throw e ->
  (exists b, b ∈ yields it
             /\ byteLength (block_bytes b) > Car.MAX_BLOCK_SIZE
             /\ e = BlockTooBig (byteLength (block_bytes b)))
  \/ (Forall small (yields it)
      /\ (e = InvalidCAR \/ e = EmptyCAR \/ e = MissingRootBlock \/ walkError e)).
Proof.
  unfold Car.inspectCarBlocks.
  destruct (Car.forAwaitBlocks rootCid it) as [[r bl]|e'] eqn:Hloop; simpl.
  - apply forAwaitBlocks_inv in Hloop as (Hall & _ & [= -> ->]).
    intros Hthrow. right. split; [exact Hall|]. revert Hthrow.
    case_bool_decide; [intros [= <-]; auto|].
    destruct (Car.findBlock (yields it) rootCid) as [rawRoot|];
      [|intros [= <-]; auto].
    destruct (Car.findDecoder lib (code rootCid)) as [d|] eqn:Hd; [|discriminate].
    destruct (decode d (block_bytes rawRoot)) as [v|e'] eqn:Hv; simpl.
    + intros Hthrow. do 3 right. revert Hthrow.
      match goal with |- ?m ≫= _ = _ -> _ => destruct m as [sz|e'] eqn:Hsz end;
        simpl.
      * destruct (_ && _); [discriminate|].
        destruct (Car.iterateDag lib stack rawRoot (yields it)) as [[|]|e']
          eqn:Hw; simpl; try discriminate.
        intros [= <-]. eapply iterateDag_Throw; eauto.
      * intros [= <-]. right; left.
        case_bool_decide; [|discriminate].
        destruct v; congruence.
    + intros [= <-]. do 3 right. right; right. eapply decode_Throw; eauto.
  - intros [= <-]. apply forAwaitBlocks_Throw in Hloop as [[-> Hall]|H]; auto.
Qed.

(** ** The number of roots (carStat) *)

(** C8.  When the reader accepts the bytes of an archive: if its header
    declares no root, [carStat] throws [missing roots]; if it declares more
    than one, [carStat] throws [too many roots]; if it declares exactly
    one, [carStat] throws nothing and returns that root as the root
    identifier, with the block iterator. *)
Theorem carStat_root_count (lib : Library) (carBytes : bytes)
    (it : CarBlockIterator) :
  fromBytes lib carBytes = Some it ->
  (length (getRoots it) = 0%nat ->
   Car.carStat lib carBytes = Throw MissingRoots)
  /\ ((1 < length (getRoots it))%nat ->
      Car.carStat lib carBytes = Throw TooManyRoots)
  /\ (forall root : CID, getRoots it = [root] ->
      Car.carStat lib carBytes = Ok (root, it)).
Proof.
  intros Hread. unfold Car.carStat. rewrite Hread. simpl.
  split; [|split].
  - intros H0. rewrite bool_decide_eq_true_2 by exact H0. reflexivity.
  - intros Hmany.
    rewrite bool_decide_eq_false_2 by lia.
    rewrite bool_decide_eq_true_2 by exact Hmany. reflexivity.
  - intros root ->. reflexivity.
Qed.

Lemma carStat_root_count_witness :
  Car.carStat Fixtures.lib Fixtures.noRootsCar = Throw MissingRoots
  /\ Car.carStat Fixtures.lib Fixtures.twoRootsCar = Throw TooManyRoots
  /\ Car.carStat Fixtures.lib Fixtures.rawCar
     = Ok (Fixtures.leafCid, Fixtures.rawIterator).
Proof.
  split; [|split].
  - apply (carStat_root_count Fixtures.lib Fixtures.noRootsCar
             Fixtures.noRootsIterator); reflexivity.
  - apply (carStat_root_count Fixtures.lib Fixtures.twoRootsCar
             Fixtures.twoRootsIterator); [reflexivity | simpl; lia].
  - apply (carStat_root_count Fixtures.lib Fixtures.rawCar
             Fixtures.rawIterator); reflexivity.
Defined.

(** ** The block size limit *)

(** C9.  The limit is 1,048,576 bytes.  [inspectCarBlocks] throws
    [block too big] if and only if some block read from the archive is
    strictly longer than that; the error names the length of the first such
    block met.  A block of exactly 1,048,576 bytes passes the check of the
    loop. *)
Theorem block_too_big_iff (lib : Library) (stack : nat) (rootCid : CID)
    (it : CarBlockIterator) :
  Car.MAX_BLOCK_SIZE = 1048576
  /\ ((exists n, Car.inspectCarBlocks lib stack rootCid it = Throw (BlockTooBig n))
      <-> (exists b, b ∈ yields it /\ byteLength (block_bytes b) > 1048576))
  /\ (forall (b : Block) (rawRootBlock : option Block) (blocks : list Block),
        byteLength (block_bytes b) = 1048576 ->
        exists rawRootBlock',
          Car.readBlocks rootCid [b] rawRootBlock blocks
          = Ok (rawRootBlock', blocks ++ [b])).
Proof.
  assert (Hmax : Car.MAX_BLOCK_SIZE = 1048576) by reflexivity.
  split; [exact Hmax|]. split; [split|].
  - intros [n Hthrow].
    apply inspectCarBlocks_Throw in Hthrow
      as [(b & Hin & Hbig & _)|(_ & [H|[H|[H|[H|[H|[c H]]]]]])];
      try discriminate.
    exists b. split; [exact Hin | lia].
  - intros (b & Hin & Hbig).
    unfold Car.inspectCarBlocks.
    destruct (Car.forAwaitBlocks rootCid it) as [st|e] eqn:Hloop.
    + apply forAwaitBlocks_inv in Hloop as (Hall & _).
      rewrite Forall_forall in Hall. specialize (Hall b Hin).
      unfold small in Hall. lia.
    + apply forAwaitBlocks_Throw in Hloop as [[_ Hall]|(b' & _ & _ & ->)].
      * rewrite Forall_forall in Hall. specialize (Hall b Hin).
        unfold small in Hall. lia.
      * simpl. eauto.
  - intros b rawRootBlock blocks Hlen. simpl.
    rewrite bool_decide_eq_false_2 by lia. eauto.
Qed.

(** ** What a successful inspection returns *)

Lemma TsizeOr0_declared (l : PBLink) : Car.TsizeOr0 l = declaredSize l.
Proof.
  unfold Car.TsizeOr0, declaredSize. destruct (Tsize l) as [t|]; simpl; auto.
  case_bool_decide; congruence.
Qed.

Lemma toDouble_exact (x : Z) : Z.abs x <= 2 ^ 53 -> toDouble x = x.
Proof.
  intros Hx. unfold toDouble.
  destruct (Z.abs x <? 2 ^ 53) eqn:Hlt; [reflexivity|].
  apply Z.ltb_ge in Hlt.
  assert (Habs : Z.abs x = 2 ^ 53) by lia.
  rewrite Habs.
  destruct (Z.abs_eq_or_opp x) as [H|H]; rewrite H in Habs.
  - rewrite Habs. reflexivity.
  - assert (x = - 2 ^ 53) as -> by lia. reflexivity.
Qed.

Lemma toDouble_large (x : Z) :
  2 ^ 53 <= x ->
  exists q e, toDouble x = q * 2 ^ e /\ 2 ^ 52 <= q /\ 1 <= e.
Proof.
  intros Hx. unfold toDouble.
  assert (H53 : 0 < 2 ^ 53) by reflexivity.
  rewrite (Z.abs_eq x) by lia.
  rewrite (proj2 (Z.ltb_ge x (2 ^ 53)) Hx).
  assert (Hlog : 53 <= Z.log2 x).
  { change 53 with (Z.log2 (2 ^ 53)). apply Z.log2_le_mono. exact Hx. }
  set (e := Z.log2 x - 52).
  assert (He : 1 <= e) by (unfold e; lia).
  assert (Hpow : 0 < 2 ^ e) by (apply Z.pow_pos_nonneg; lia).
  assert (Hq : 2 ^ 52 <= x / 2 ^ e).
  { apply Z.div_le_lower_bound; [exact Hpow|].
    rewrite <- Z.pow_add_r by lia.
    replace (e + 52) with (Z.log2 x) by (unfold e; lia).
    apply Z.log2_spec. lia. }
  rewrite Z.sgn_pos by lia. rewrite Z.mul_1_l.
  eexists _, e. split; [reflexivity|]. split; [|exact He].
  destruct (_ <? _); [exact Hq|].
  destruct (_ <? _); [lia|].
  destruct (Z.even _); lia.
Qed.

Lemma toDouble_big (x : Z) : 2 ^ 53 <= x -> 2 ^ 53 <= toDouble x.
Proof.
  intros Hx. destruct (toDouble_large x Hx) as (q & e & -> & Hq & He).
  assert (H2 : 2 ^ 1 <= 2 ^ e) by (apply Z.pow_le_mono_r; lia).
  change (2 ^ 53) with (2 ^ 52 * 2 ^ 1).
  assert (0 < 2 ^ 52) by reflexivity.
  apply Z.mul_le_mono_nonneg; lia.
Qed.

Lemma toDouble_nonneg (x : Z) : 0 <= x -> 0 <= toDouble x.
Proof.
  intros Hx. destruct (Z.le_gt_cases (2 ^ 53) x) as [Hbig|Hsmall].
  - pose proof (toDouble_big x Hbig). assert (0 < 2 ^ 53) by reflexivity. lia.
  - rewrite toDouble_exact; [exact Hx|]. rewrite Z.abs_eq; lia.
Qed.

Lemma jsAdd_exact (a b : Z) :
  0 <= a -> 0 <= b -> a + b <= 2 ^ 53 -> jsAdd a b = a + b.
Proof.
  intros Ha Hb Hsum. unfold jsAdd. apply toDouble_exact.
  rewrite Z.abs_eq; lia.
Qed.

Lemma jsAdd_nonneg (a b : Z) : 0 <= a -> 0 <= b -> 0 <= jsAdd a b.
Proof. intros Ha Hb. unfold jsAdd. apply toDouble_nonneg. lia. Qed.

Lemma jsAdd_lower (a b : Z) :
  0 <= a <= 2 ^ 53 -> 0 <= b -> a <= jsAdd a b.
Proof.
  intros Ha Hb. unfold jsAdd.
  destruct (Z.le_gt_cases (2 ^ 53) (a + b)) as [Hbig|Hsmall].
  - pose proof (toDouble_big (a + b) Hbig). lia.
  - rewrite toDouble_exact; [lia|]. rewrite Z.abs_eq; lia.
Qed.

Lemma declared_total_nonneg (ls : list PBLink) :
  Forall (fun l => 0 <= declaredSize l) ls -> 0 <= total (declaredSize <$> ls).
Proof.
  induction 1 as [|l ls Hl _ IH]; [reflexivity|].
  change (0 <= declaredSize l + total (declaredSize <$> ls)). lia.
Qed.

(** The [reduce] of [cumulativeSize]: it never goes below 0 on sizes of 0
    or more, and it is the exact sum as long as that is at most 2^53. *)
Lemma reduce_nonneg (ls : list PBLink) (acc : Z) :
  0 <= acc -> Forall (fun l => 0 <= declaredSize l) ls ->
  0 <= fold_left (fun acc curr => jsAdd acc (Car.TsizeOr0 curr)) ls acc.
Proof.
  intros Hacc Hls. revert acc Hacc.
  induction Hls as [|l ls Hl _ IH]; intros acc Hacc; simpl; [exact Hacc|].
  apply IH. apply jsAdd_nonneg; [exact Hacc|].
  rewrite TsizeOr0_declared. exact Hl.
Qed.

Lemma reduce_exact (ls : list PBLink) (acc : Z) :
  0 <= acc -> Forall (fun l => 0 <= declaredSize l) ls ->
  acc + total (declaredSize <$> ls) <= 2 ^ 53 ->
  fold_left (fun acc curr => jsAdd acc (Car.TsizeOr0 curr)) ls acc
  = acc + total (declaredSize <$> ls).
Proof.
  intros Hacc Hls. revert acc Hacc.
  induction Hls as [|l ls Hl Hls IH]; intros acc Hacc Hsum.
  - change (acc = acc + 0). lia.
  - change (total (declaredSize <$> l :: ls))
      with (declaredSize l + total (declaredSize <$> ls)) in *.
    pose proof (declared_total_nonneg ls Hls) as Hrest.
    simpl. rewrite TsizeOr0_declared.
    rewrite (jsAdd_exact acc (declaredSize l)) by lia.
    rewrite IH by lia. lia.
Qed.

Lemma byteLength_nonneg (b : bytes) : 0 <= byteLength b.
Proof. unfold byteLength. lia. Qed.

Lemma cumulativeSize_exact (pbNodeBytes : bytes) (pbNode : PBNode) :
  Forall (fun l => 0 <= declaredSize l) (Links pbNode) ->
  byteLength pbNodeBytes + total (declaredSize <$> Links pbNode) <= 2 ^ 53 ->
  Car.cumulativeSize pbNodeBytes pbNode
  = byteLength pbNodeBytes + total (declaredSize <$> Links pbNode).
Proof.
  intros Hls Hsum. unfold Car.cumulativeSize.
  pose proof (byteLength_nonneg pbNodeBytes) as Hlen.
  pose proof (declared_total_nonneg _ Hls) as Htotal.
  rewrite reduce_exact by (auto; lia).
  rewrite Z.add_0_l. apply jsAdd_exact; lia.
Qed.

Lemma cumulativeSize_lower (pbNodeBytes : bytes) (pbNode : PBNode) :
  Forall (fun l => 0 <= declaredSize l) (Links pbNode) ->
  byteLength pbNodeBytes <= 2 ^ 53 ->
  byteLength pbNodeBytes <= Car.cumulativeSize pbNodeBytes pbNode.
Proof.
  intros Hls Hlen. unfold Car.cumulativeSize.
  pose proof (byteLength_nonneg pbNodeBytes).
  apply jsAdd_lower; [lia|]. apply reduce_nonneg; [lia | exact Hls].
Qed.

Lemma cumulativeSize_positive (pbNodeBytes : bytes) (pbNode : PBNode) :
  Forall (fun l => 0 <= declaredSize l) (Links pbNode) ->
  pbNodeBytes <> [] ->
  0 < Car.cumulativeSize pbNodeBytes pbNode.
Proof.
  intros Hls Hne. unfold Car.cumulativeSize, jsAdd.
  assert (Hlen : 0 < byteLength pbNodeBytes).
  { unfold byteLength. destruct pbNodeBytes; [contradiction | simpl; lia]. }
  pose proof (reduce_nonneg (Links pbNode) 0 ltac:(lia) Hls) as Hred.
  set (s := fold_left _ _ _) in *.
  destruct (Z.le_gt_cases (2 ^ 53) (byteLength pbNodeBytes + s)) as [Hbig|Hsmall].
  - pose proof (toDouble_big _ Hbig). assert (0 < 2 ^ 53) by reflexivity. lia.
  - rewrite toDouble_exact; [lia|]. rewrite Z.abs_eq; lia.
Qed.

(** The size [inspectCarBlocks] computes from the decoded root. *)
Lemma root_size (lib : Library) (rawRoot : Block) (d : Decoder) (v : Value) :
  Car.findDecoder lib (code (cid rawRoot)) = Some d ->
  decode d (block_bytes rawRoot) = Ok v ->
  (code (cid rawRoot) = pb_code
   /\ exists node, pb_decode lib (block_bytes rawRoot) = Some node
                   /\ v = VNode node)
  \/ (code (cid rawRoot) <> pb_code /\ forall node, v <> VNode node).
Proof.
  intros Hd Hv.
  destruct (findDecoder_supported lib (code (cid rawRoot)))
    as [[Hc H]|[[Hc H]|[[Hc H]|[_ H]]]];
    rewrite H in Hd; try discriminate; injection Hd as <-; simpl in Hv.
  - left. split; [exact Hc|].
    destruct (pb_decode lib (block_bytes rawRoot)) as [node|];
      simpl in Hv; [|discriminate].
    injection Hv as <-. eauto.
  - right. rewrite Hc. split; [unfold raw_code, pb_code; lia|].
    injection Hv as <-. discriminate.
  - right. rewrite Hc. split; [unfold cbor_code, pb_code; lia|].
    destruct (cbor_decode lib (block_bytes rawRoot)); simpl in Hv;
      [|discriminate].
    injection Hv as <-. discriminate.
Qed.

(** Everything a successful call of [inspectCarBlocks] says about its
    arguments. *)
Lemma inspectCarBlocks_Ok (lib : Library) (stack : nat) (root : CID)
    (it : CarBlockIterator) (r : Car.Inspection) :
  Car.inspectCarBlocks lib stack root it = Ok r ->
  Forall small (yields it) /\ breaks it = false /\ Car.rootCid r = root
  /\ exists rawRoot,
      Car.findBlock (yields it) root = Some rawRoot
      /\ match Car.findDecoder lib (code root) with
         | None => Car.structure r = None /\ Car.size r = None
         | Some d =>
             exists v, decode d (block_bytes rawRoot) = Ok v
             /\ Car.size r
                = match v with
                  | VNode node =>
                      Some (Car.cumulativeSize (block_bytes rawRoot) node)
                  | _ => None
                  end
             /\ ((length (yields it) = 1%nat /\ code root = raw_code
                  /\ Car.structure r = Some "Complete"%string)
                 \/ (~ (length (yields it) = 1%nat /\ code root = raw_code)
                     /\ exists complete : bool,
                         Car.iterateDag lib stack rawRoot (yields it) = Ok complete
                         /\ Car.structure r
                            = Some (if complete then "Complete"%string
                                    else "Partial"%string)))
         end.
Proof.
  unfold Car.inspectCarBlocks.
  destruct (Car.forAwaitBlocks root it) as [[r0 bl]|e'] eqn:Hloop; simpl;
    [|discriminate].
  apply forAwaitBlocks_inv in Hloop as (Hall & Hbr & [= -> ->]).
  case_bool_decide as Hlen; [discriminate|].
  destruct (Car.findBlock (yields it) root) as [rawRoot|] eqn:Hroot;
    [|discriminate].
  pose proof (findBlock_Some _ _ _ Hroot) as [Hcid _].
  destruct (Car.findDecoder lib (code root)) as [d|] eqn:Hd.
  - destruct (decode d (block_bytes rawRoot)) as [v|e'] eqn:Hv; simpl;
      [|discriminate].
    assert (Hd' : Car.findDecoder lib (code (cid rawRoot)) = Some d)
      by (rewrite Hcid; exact Hd).
    destruct (root_size lib rawRoot d v Hd' Hv)
      as [(Hpb & node & _ & ->)|(Hnpb & Hnode)].
    + rewrite (bool_decide_eq_true_2 (code (cid rawRoot) = pb_code))
        by exact Hpb.
      simpl.
      destruct (bool_decide (length (yields it) = 1%nat)
                && bool_decide (code root = raw_code)) eqn:Hone.
      * intros [= <-]; simpl.
        apply andb_true_iff in Hone as [H1 H2].
        apply bool_decide_eq_true in H1, H2.
        repeat split; auto. exists rawRoot. split; [reflexivity|].
        exists (VNode node). split; [auto|split; [auto|left; auto]].
      * apply andb_false_iff in Hone.
        destruct (Car.iterateDag lib stack rawRoot (yields it)) as [c|e']
          eqn:Hw; simpl; [|discriminate].
        intros Hr.
        assert (r = Car.mkInspection root
                      (Some (if c then "Complete"%string else "Partial"%string))
                      (Some (Car.cumulativeSize (block_bytes rawRoot) node)))
          as -> by (destruct c; congruence).
        simpl. repeat split; auto. exists rawRoot. split; [reflexivity|].
        exists (VNode node). repeat split; auto. right. split.
        -- intros [H1 H2].
           destruct Hone as [Hone|Hone]; apply bool_decide_eq_false in Hone; auto.
        -- exists c. auto.
    + rewrite (bool_decide_eq_false_2 (code (cid rawRoot) = pb_code))
        by exact Hnpb.
      simpl.
      assert (Hsz : match v with
                    | VNode node =>
                        Some (Car.cumulativeSize (block_bytes rawRoot) node)
                    | _ => None
                    end = None)
        by (destruct v; auto; exfalso; eapply Hnode; eauto).
      destruct (bool_decide (length (yields it) = 1%nat)
                && bool_decide (code root = raw_code)) eqn:Hone.
      * intros [= <-]; simpl.
        apply andb_true_iff in Hone as [H1 H2].
        apply bool_decide_eq_true in H1, H2.
        repeat split; auto. exists rawRoot. split; [reflexivity|].
        exists v. split; [auto|split; [auto|left; auto]].
      * apply andb_false_iff in Hone.
        destruct (Car.iterateDag lib stack rawRoot (yields it)) as [c|e']
          eqn:Hw; simpl; [|discriminate].
        intros Hr.
        assert (r = Car.mkInspection root
                      (Some (if c then "Complete"%string else "Partial"%string))
                      None)
          as -> by (destruct c; congruence).
        simpl. repeat split; auto. exists rawRoot. split; [reflexivity|].
        exists v. repeat split; auto. right. split.
        -- intros [H1 H2].
           destruct Hone as [Hone|Hone]; apply bool_decide_eq_false in Hone; auto.
        -- exists c. auto.
  - intros [= <-]; simpl. repeat split; auto. exists rawRoot. auto.
Qed.

Lemma block_too_big_iff_witness :
  (exists n,
     Car.inspectCarBlocks Fixtures.lib 8 Fixtures.leafCid
       (mkIterator [Fixtures.leafCid] [Fixtures.leaf; Fixtures.oversized] false)
     = Throw (BlockTooBig n))
  /\ exists rawRootBlock',
       Car.readBlocks Fixtures.leafCid [Fixtures.atLimit] None []
       = Ok (rawRootBlock', [] ++ [Fixtures.atLimit]).
Proof.
  destruct (block_too_big_iff Fixtures.lib 8 Fixtures.leafCid
              (mkIterator [Fixtures.leafCid] [Fixtures.leaf; Fixtures.oversized]
                 false)) as (_ & [_ Hthrows] & Hlimit).
  split.
  - apply Hthrows. exists Fixtures.oversized. split.
    + right. left.
    + unfold Fixtures.oversized, byteLength. cbn [block_bytes].
      rewrite length_replicate. lia.
  - apply Hlimit.
    unfold Fixtures.atLimit, byteLength. cbn [block_bytes].
    rewrite length_replicate. lia.
Defined.

(** ** The estimated size *)

(** The size in a result of [inspectCarBlocks], by the codec of the root. *)
Lemma inspectCarBlocks_size (lib : Library) (stack : nat) (root : CID)
    (it : CarBlockIterator) (r : Car.Inspection) :
  Car.inspectCarBlocks lib stack root it = Ok r ->
  exists rawRoot,
    Car.findBlock (yields it) root = Some rawRoot
    /\ ((code root = pb_code
         /\ exists node, pb_decode lib (block_bytes rawRoot) = Some node
            /\ Car.size r
               = Some (Car.cumulativeSize (block_bytes rawRoot) node))
        \/ (code root <> pb_code /\ Car.size r = None)).
Proof.
  intros Hr.
  apply inspectCarBlocks_Ok in Hr as (_ & _ & _ & rawRoot & Hroot & Hd).
  exists rawRoot. split; [exact Hroot|].
  pose proof (findBlock_Some _ _ _ Hroot) as [Hcid _].
  destruct (Car.findDecoder lib (code root)) as [d|] eqn:Hfind.
  - destruct Hd as (v & Hv & Hsz & _).
    rewrite <- Hcid in Hfind.
    destruct (root_size lib rawRoot d v Hfind Hv)
      as [(Hpb & node & Hnode & ->)|(Hnpb & Hnode)]; rewrite Hcid in *.
    + left. eauto.
    + right. split; [exact Hnpb|]. rewrite Hsz.
      destruct v; auto. exfalso. eapply Hnode; eauto.
  - right. split; [|apply Hd].
    apply findDecoder_None in Hfind. unfold supported in Hfind. tauto.
Qed.

(** C3, as the code has it.  Whenever [inspectCarBlocks] returns a
    result: if the root's codec is dag-pb, the root block decodes as a
    dag-pb node and the result has a size, the sum as doubles add it
    ([jsAdd]) of the byte length of the root block and the sizes the links
    of that node declare, a link that declares no size counting for 0;
    when the declared sizes are 0 or more and add up, with the byte length
    of the root block, to at most 2^53, the size is their exact sum.  If
    the root's codec is any other, raw and
    dag-cbor included, the result has no size.  The size is the same for
    any two archives with that root whose root blocks hold the same bytes,
    whatever other blocks they contain. *)
Theorem estimated_size (lib : Library) (stack : nat) (root : CID)
    (it : CarBlockIterator) (r : Car.Inspection) :
  Car.inspectCarBlocks lib stack root it = Ok r ->
  (code root = pb_code ->
   exists rawRoot node n,
     Car.findBlock (yields it) root = Some rawRoot
     /\ pb_decode lib (block_bytes rawRoot) = Some node
     /\ Car.size r = Some n
     /\ n = jsAdd (byteLength (block_bytes rawRoot))
              (fold_left (fun acc l => jsAdd acc (declaredSize l))
                 (Links node) 0)
     /\ (Forall (fun l => 0 <= declaredSize l) (Links node) ->
         byteLength (block_bytes rawRoot)
         + total (declaredSize <$> Links node) <= 2 ^ 53 ->
         n = byteLength (block_bytes rawRoot)
             + total (declaredSize <$> Links node)))
  /\ (code root <> pb_code -> Car.size r = None)
  /\ (forall (stack' : nat) (it' : CarBlockIterator) (r' : Car.Inspection),
        Car.inspectCarBlocks lib stack' root it' = Ok r' ->
        block_bytes <$> Car.findBlock (yields it') root
        = block_bytes <$> Car.findBlock (yields it) root ->
        Car.size r' = Car.size r).
Proof.
  pose proof (fun stack it r => inspectCarBlocks_size lib stack root it r)
    as Hsize.
  intros Hr. split; [|split].
  - intros Hpb.
    destruct (Hsize _ _ _ Hr) as (rawRoot & Hroot & [(_ & node & Hn & Hsz)|[Hn _]]);
      [|contradiction].
    exists rawRoot, node, (Car.cumulativeSize (block_bytes rawRoot) node).
    split; [exact Hroot|]. split; [exact Hn|]. split; [exact Hsz|].
    split; [|intros Hls Hsum; apply cumulativeSize_exact; assumption].
    unfold Car.cumulativeSize. f_equal. generalize 0.
    induction (Links node) as [|l ls IH]; intros acc; simpl; [reflexivity|].
    rewrite TsizeOr0_declared. apply IH.
  - intros Hnpb.
    destruct (Hsize _ _ _ Hr) as (rawRoot & Hroot & [(Hpb & _)|[_ Hsz]]);
      [contradiction | exact Hsz].
  - intros stack' it' r' Hr' Hsame.
    destruct (Hsize _ _ _ Hr) as (b & Hb & Hcase).
    destruct (Hsize _ _ _ Hr') as (b' & Hb' & Hcase').
    rewrite Hb, Hb' in Hsame. simpl in Hsame. injection Hsame as Hsame.
    destruct Hcase as [(Hpb & node & Hn & ->)|[Hnpb ->]];
      destruct Hcase' as [(Hpb' & node' & Hn' & ->)|[Hnpb' ->]];
      try contradiction; [|reflexivity].
    rewrite Hsame in Hn'. congruence.
Qed.

Lemma estimated_size_witness :
  exists rawRoot node n,
    Car.findBlock (yields Fixtures.dirPartIterator) Fixtures.dirCid = Some rawRoot
    /\ pb_decode Fixtures.lib (block_bytes rawRoot) = Some node
    /\ Some 14 = Some n
    /\ n = jsAdd (byteLength (block_bytes rawRoot))
             (fold_left (fun acc l => jsAdd acc (declaredSize l))
                (Links node) 0)
    /\ (Forall (fun l => 0 <= declaredSize l) (Links node) ->
        byteLength (block_bytes rawRoot)
        + total (declaredSize <$> Links node) <= 2 ^ 53 ->
        n = byteLength (block_bytes rawRoot)
            + total (declaredSize <$> Links node)).
Proof.
  apply (estimated_size Fixtures.lib 8 Fixtures.dirCid Fixtures.dirPartIterator
           (Car.mkInspection Fixtures.dirCid (Some "Partial"%string) (Some 14)));
    reflexivity.
Defined.

(** C3 as stated fails above 2^53: the root block of the archive with root
    [bigCid] has 19 bytes and its one link declares the size 2^53; their
    sum is 9007199254741011, the size in the result is the double next to
    it, 9007199254741012. *)
Lemma estimated_size_counterexample :
  code Big.bigCid = pb_code
  /\ Car.findBlock (yields Big.bigIterator) Big.bigCid = Some Big.big
  /\ pb_decode Big.lib (block_bytes Big.big) = Some Big.bigNode
  /\ byteLength (block_bytes Big.big)
     + total (declaredSize <$> Links Big.bigNode) = 9007199254741011
  /\ Car.inspectCarBlocks Big.lib 8 Big.bigCid Big.bigIterator
     = Ok (Car.mkInspection Big.bigCid (Some "Partial"%string)
             (Some 9007199254741012)).
Proof. repeat split; vm_compute; reflexivity. Qed.

(** ** The structure the handler goes by *)

(** C7.  When [carStat] and [inspectCarBlocks] succeed, the inspection has
    no structure exactly when the root's codec is none of dag-pb, raw and
    dag-cbor; a structure it has is [Complete] or [Partial], and
    [inspectCar] returns it whatever the metadata say; when it has none,
    [inspectCar] returns the [structure] entry of the metadata. *)
Theorem structure_from_walk_or_metadata (lib : Library) (stack : nat)
    (body : bytes) (metadata : gmap string string) (root : CID)
    (it : CarBlockIterator) (r : Car.Inspection) :
  Car.carStat lib body = Ok (root, it) ->
  Car.inspectCarBlocks lib stack root it = Ok r ->
  (Car.structure r = None <-> ~ supported (code root))
  /\ (forall verdict : string,
        Car.structure r = Some verdict ->
        (verdict = "Complete"%string \/ verdict = "Partial"%string)
        /\ Index.inspectCar lib stack body metadata
           = Ok (root, Some verdict, Car.size r))
  /\ (Car.structure r = None ->
      Index.inspectCar lib stack body metadata
      = Ok (root, metadata !! "structure"%string, Car.size r)).
Proof.
  intros Hstat Hr.
  assert (Hrun : Index.inspectCar lib stack body metadata
                 = Ok (root, orElse (Car.structure r)
                               (metadata !! "structure"%string), Car.size r)).
  { unfold Index.inspectCar. rewrite Hstat. simpl. rewrite Hr. reflexivity. }
  pose proof (inspectCarBlocks_Ok _ _ _ _ _ Hr)
    as (_ & _ & _ & rawRoot & _ & Hd).
  assert (Hverdict :
    (~ supported (code root) /\ Car.structure r = None)
    \/ (supported (code root)
        /\ (Car.structure r = Some "Complete"%string
            \/ Car.structure r = Some "Partial"%string))).
  { destruct (Car.findDecoder lib (code root)) as [d|] eqn:Hfind.
    - right. split.
      + destruct (findDecoder_supported lib (code root))
          as [[Hc _]|[[Hc _]|[[Hc _]|[_ H]]]];
          unfold supported; auto. congruence.
      + destruct Hd as (v & _ & _ & [(_ & _ & ->)|(_ & [|] & _ & ->)]); auto.
    - left. split; [apply (findDecoder_None lib), Hfind | apply Hd]. }
  split; [|split].
  - destruct Hverdict as [[Hn ->]|[Hs [->| ->]]]; split; auto;
      try discriminate; intros; contradiction.
  - intros verdict Hv. rewrite Hrun, Hv.
    destruct Hverdict as [[_ H]|[_ [H|H]]]; rewrite H in Hv;
      try discriminate; injection Hv as <-; simpl; auto.
  - intros Hnone. rewrite Hrun, Hnone. reflexivity.
Qed.

Lemma structure_from_walk_or_metadata_witness :
  Index.inspectCar Fixtures.lib 8 Fixtures.jsonRootCar
    {[ "structure"%string := "Complete"%string ]}
  = Ok (Fixtures.jsonCid,
        ({[ "structure"%string := "Complete"%string ]} : gmap string string)
          !! "structure"%string,
        None)
  /\ Index.inspectCar Fixtures.lib 8 Fixtures.dirPartCar
       {[ "structure"%string := "Complete"%string ]}
     = Ok (Fixtures.dirCid, Some "Partial"%string, Some 14).
Proof.
  split.
  - apply (structure_from_walk_or_metadata Fixtures.lib 8 Fixtures.jsonRootCar
             {[ "structure"%string := "Complete"%string ]} Fixtures.jsonCid
             Fixtures.jsonRootIterator
             (Car.mkInspection Fixtures.jsonCid None None));
      reflexivity.
  - apply (structure_from_walk_or_metadata Fixtures.lib 8 Fixtures.dirPartCar
             {[ "structure"%string := "Complete"%string ]} Fixtures.dirCid
             Fixtures.dirPartIterator
             (Car.mkInspection Fixtures.dirCid (Some "Partial"%string) (Some 14)));
      reflexivity.
Defined.

(** ** The walk *)

Lemma blockLinks_Some (lib : Library) (b : Block) (ls : list CID) :
  Dag.blockLinks lib b = Some ls ->
  exists d v, Car.findDecoder lib (code (cid b)) = Some d
              /\ decode d (block_bytes b) = Ok v /\ links v = ls.
Proof.
  unfold Dag.blockLinks.
  destruct (Car.findDecoder lib (code (cid b))) as [d|]; [|discriminate].
  destruct (decode d (block_bytes b)) as [v|] eqn:Hv; [|discriminate].
  intros [= <-]. exists d, v. auto.
Qed.

Lemma blockLinks_supported (lib : Library) (b : Block) (ls : list CID) :
  Dag.blockLinks lib b = Some ls -> supported (code (cid b)).
Proof.
  intros (d & _ & Hd & _)%blockLinks_Some.
  destruct (findDecoder_supported lib (code (cid b)))
    as [[Hc _]|[[Hc _]|[[Hc _]|[_ H]]]]; unfold supported; auto. congruence.
Qed.

(** One call of [iterateDag] on a block whose links can be read. *)
Lemma iterateDag_step (lib : Library) (stack : nat) (b : Block)
    (blocks : list Block) (ls : list CID) :
  Dag.blockLinks lib b = Some ls ->
  Car.iterateDag lib (S stack) b blocks
  = Car.forLinks (fun b' => Car.iterateDag lib stack b' blocks) blocks ls.
Proof.
  intros (d & v & Hd & Hv & <-)%blockLinks_Some. simpl.
  rewrite Hd, Hv. reflexivity.
Qed.

(** The loop passes over links whose walk is complete. *)
Lemma forLinks_complete_prefix (recur : Block -> Outcome bool)
    (blocks : list Block) (pre rest : list CID) :
  (forall p, p ∈ pre ->
     exists bp, Car.findBlock blocks p = Some bp /\ recur bp = Ok true) ->
  Car.forLinks recur blocks (pre ++ rest) = Car.forLinks recur blocks rest.
Proof.
  induction pre as [|p pre IH]; intros Hpre; simpl; [reflexivity|].
  destruct (Hpre p) as (bp & -> & ->); [left|]. simpl.
  apply IH. intros q Hq. apply Hpre. now right.
Qed.

Lemma forLinks_mono (r1 r2 : Block -> Outcome bool) (blocks : list Block)
    (ls : list CID) (v : bool) :
  (forall b w, r1 b = Ok w -> r2 b = Ok w) ->
  Car.forLinks r1 blocks ls = Ok v -> Car.forLinks r2 blocks ls = Ok v.
Proof.
  intros Hr. induction ls as [|l ls IH]; simpl; [auto|].
  destruct (Car.findBlock blocks l) as [b|]; [|auto].
  destruct (r1 b) as [w|e] eqn:H1; simpl; [|discriminate].
  rewrite (Hr _ _ H1). simpl. destruct w; simpl; auto.
Qed.

(** A walk that returns with some stack returns the same with more. *)
Lemma iterateDag_mono (lib : Library) (blocks : list Block) (n m : nat)
    (b : Block) (v : bool) :
  (n <= m)%nat ->
  Car.iterateDag lib n b blocks = Ok v -> Car.iterateDag lib m b blocks = Ok v.
Proof.
  revert m b v. induction n as [|n IH]; intros m b v Hle; simpl; [discriminate|].
  destruct m as [|m]; [lia|]. simpl.
  destruct (Car.findDecoder lib (code (cid b))) as [d|]; [|auto].
  destruct (decode d (block_bytes b)) as [val|]; simpl; [|auto].
  apply forLinks_mono. intros b' w. apply IH. lia.
Qed.

(** Every block of the archive is walkable when all of them can be read
    and their links descend along some rank, as links do in a
    content-addressed DAG, where a block is hashed after its children. *)
Lemma Walkable_of_rank (lib : Library) (blocks : list Block)
    (rank : Block -> nat) :
  (forall b, b ∈ blocks -> is_Some (Dag.blockLinks lib b)) ->
  (forall b ls l b',
      b ∈ blocks -> Dag.blockLinks lib b = Some ls -> l ∈ ls ->
      Car.findBlock blocks l = Some b' -> (rank b' < rank b)%nat) ->
  forall b, b ∈ blocks -> Dag.Walkable lib blocks b.
Proof.
  intros Hread Hrank b.
  remember (rank b) as n eqn:Hn. revert b Hn.
  induction n as [n IH] using lt_wf_ind. intros b -> Hin.
  destruct (Hread b Hin) as [ls Hls].
  apply (Dag.walkable lib blocks b ls Hls).
  intros l b' Hl Hfind.
  apply (IH (rank b')); [eapply Hrank; eauto | reflexivity |].
  now apply findBlock_Some in Hfind.
Qed.

(** Below a walkable block every block that is reached can be read. *)
Lemma Walkable_readable (lib : Library) (blocks : list Block) (b : Block) :
  Dag.Walkable lib blocks b ->
  forall c d bd,
    Car.findBlock blocks c = Some b -> Dag.Reach lib blocks c d ->
    Car.findBlock blocks d = Some bd -> is_Some (Dag.blockLinks lib bd).
Proof.
  induction 1 as [b ls Hls Hsub IH]. intros c d bd Hc Hreach Hd.
  inversion Hreach as [|c' b0 ls0 l d' Hc0 Hls0 Hin Hrest]; subst.
  - rewrite Hc in Hd. injection Hd as <-. eauto.
  - rewrite Hc in Hc0. injection Hc0 as <-.
    rewrite Hls in Hls0. injection Hls0 as <-.
    inversion Hrest as [|c' b1 ls1 l' d' Hc1 Hls1 Hin1 Hrest1]; subst.
    + eapply (IH d bd Hin Hd d d bd Hd); [constructor | exact Hd].
    + eapply (IH l b1 Hin Hc1 l d bd Hc1 Hrest Hd).
Qed.

(** What the walk of a walkable block returns. *)
Lemma iterateDag_Walkable (lib : Library) (blocks : list Block) (b : Block) :
  Dag.Walkable lib blocks b ->
  forall c, Car.findBlock blocks c = Some b ->
  exists n v,
    Car.iterateDag lib n b blocks = Ok v
    /\ if v then forall d, Dag.Reach lib blocks c d -> Dag.present blocks d
       else exists d, Dag.Reach lib blocks c d /\ ~ Dag.present blocks d.
Proof.
  induction 1 as [b ls Hls _ IH]. intros c Hc.
  assert (Hloop : exists n v,
    Car.forLinks (fun b' => Car.iterateDag lib n b' blocks) blocks ls = Ok v
    /\ if v
       then forall l d, l ∈ ls -> Dag.Reach lib blocks l d -> Dag.present blocks d
       else exists l d, l ∈ ls /\ Dag.Reach lib blocks l d
                        /\ ~ Dag.present blocks d).
  { clear Hls Hc. induction ls as [|l ls IHls].
    - exists 0%nat, true. split; [reflexivity|].
      intros l d Hin. inversion Hin.
    - destruct IHls as (n2 & v2 & Hrest & Hv2).
      { intros l' b' Hin. apply IH. now right. }
      simpl. destruct (Car.findBlock blocks l) as [b'|] eqn:Hl.
      + destruct (IH l b' ltac:(left) Hl l Hl) as (n1 & v1 & Hwalk & Hv1).
        exists (Nat.max n1 n2).
        rewrite (iterateDag_mono lib blocks n1 (Nat.max n1 n2) b' v1
                   ltac:(lia) Hwalk). simpl.
        destruct v1; simpl.
        * exists v2. split.
          -- eapply forLinks_mono; [|exact Hrest].
             intros b0 w. apply iterateDag_mono. lia.
          -- destruct v2.
             ++ intros l' d [->|Hin]%elem_of_cons; eauto.
             ++ destruct Hv2 as (l' & d & Hin & Hreach & Hmiss).
                exists l', d. split; [now right | auto].
        * exists false. split; [reflexivity|].
          destruct Hv1 as (d & Hreach & Hmiss).
          exists l, d. split; [left | auto].
      + exists 0%nat, false. split; [reflexivity|].
        exists l, l. split; [left|]. split; [constructor|].
        unfold Dag.present. rewrite Hl. intros [? ?]. discriminate. }
  destruct Hloop as (n & v & Hloop & Hv).
  exists (S n), v. split.
  - rewrite (iterateDag_step lib n b blocks ls Hls). exact Hloop.
  - destruct v.
    + intros d Hreach. inversion Hreach as [|c' b0 ls0 l d' Hc0 Hls0 Hin Hrest];
        subst.
      * unfold Dag.present. rewrite Hc. eauto.
      * rewrite Hc in Hc0. injection Hc0 as <-.
        rewrite Hls in Hls0. injection Hls0 as <-. eauto.
    + destruct Hv as (l & d & Hin & Hreach & Hmiss).
      exists d. split; [|exact Hmiss].
      eapply Dag.reach_link; eauto.
Qed.

Lemma raw_no_links (lib : Library) (b : Block) :
  code (cid b) = raw_code -> Dag.blockLinks lib b = Some [].
Proof. intros Hraw. unfold Dag.blockLinks. rewrite Hraw. reflexivity. Qed.

(** [inspectCarBlocks] on an archive that passes the checks of the loop
    and whose root block can be read: the size is settled, and the
    structure is that of the one-block raw archive or of the walk. *)
Lemma inspectCarBlocks_readable (lib : Library) (stack : nat) (root : CID)
    (it : CarBlockIterator) (rawRoot : Block) (ls : list CID) :
  Forall small (yields it) -> breaks it = false ->
  Car.findBlock (yields it) root = Some rawRoot ->
  Dag.blockLinks lib rawRoot = Some ls ->
  exists sz,
    Car.inspectCarBlocks lib stack root it
    = if bool_decide (length (yields it) = 1%nat)
         && bool_decide (code root = raw_code)
      then Ok (Car.mkInspection root (Some "Complete"%string) sz)
      else
        complete ← Car.iterateDag lib stack rawRoot (yields it);
        Ok (Car.mkInspection root
              (Some (if complete : bool then "Complete"%string
                     else "Partial"%string)) sz).
Proof.
  intros Hall Hbr Hroot (d & v & Hd & Hv & _)%blockLinks_Some.
  pose proof (findBlock_Some _ _ _ Hroot) as [Hcid Hin].
  unfold Car.inspectCarBlocks.
  rewrite (forAwaitBlocks_Ok root it Hall Hbr). simpl.
  rewrite bool_decide_eq_false_2
    by (destruct (yields it); [inversion Hin | discriminate]).
  assert (Hd' : Car.findDecoder lib (code root) = Some d)
    by (rewrite <- Hcid; exact Hd).
  rewrite Hroot, Hd', Hv. simpl.
  destruct (root_size lib rawRoot d v Hd Hv)
    as [(Hpb & node & _ & ->)|(Hnpb & Hnode)].
  - rewrite (bool_decide_eq_true_2 (code (cid rawRoot) = pb_code)) by exact Hpb.
    simpl. eexists.
    destruct (_ && _); [reflexivity|].
    destruct (Car.iterateDag lib stack rawRoot (yields it)) as [[|]|];
      reflexivity.
  - rewrite (bool_decide_eq_false_2 (code (cid rawRoot) = pb_code))
      by exact Hnpb.
    simpl. eexists.
    destruct (_ && _); [reflexivity|].
    destruct (Car.iterateDag lib stack rawRoot (yields it)) as [[|]|];
      reflexivity.
Qed.

(** ** Complete or partial *)

(** C2, as the code has it.  Take an archive that passes the checks of the
    loop, holds a block for its root, and in which the walk from the root
    block meets only blocks it can read (one of the three codecs, bytes
    that decode) and no cycle.  With enough call stack
    [inspectCarBlocks] returns a result; its structure is [Complete]
    exactly when every identifier reachable from the root by following
    links has a block in the archive, and [Partial] exactly when some
    reachable identifier has none.  And the loop over the links of a block
    stops at the first link that has no block: when the links before it
    were walked as complete, [iterateDag] answers [false] whatever links
    follow, readable or not. *)
Theorem classify_walkable (lib : Library) (root : CID) (it : CarBlockIterator)
    (rawRoot : Block) :
  Forall small (yields it) -> breaks it = false ->
  Car.findBlock (yields it) root = Some rawRoot ->
  Dag.Walkable lib (yields it) rawRoot ->
  (exists n : nat, forall stack : nat, (n <= stack)%nat ->
     exists r,
       Car.inspectCarBlocks lib stack root it = Ok r
       /\ (Car.structure r = Some "Complete"%string
           <-> forall d, Dag.Reach lib (yields it) root d
                         -> Dag.present (yields it) d)
       /\ (Car.structure r = Some "Partial"%string
           <-> exists d, Dag.Reach lib (yields it) root d
                         /\ ~ Dag.present (yields it) d))
  /\ (forall (stack : nat) (b : Block) (pre post : list CID) (missing : CID),
        Dag.blockLinks lib b = Some (pre ++ missing :: post) ->
        (forall p, p ∈ pre ->
           exists bp, Car.findBlock (yields it) p = Some bp
                      /\ Car.iterateDag lib stack bp (yields it) = Ok true) ->
        Car.findBlock (yields it) missing = None ->
        Car.iterateDag lib (S stack) b (yields it) = Ok false).
Proof.
  intros Hall Hbr Hroot Hwalk. split.
  - destruct (iterateDag_Walkable lib (yields it) rawRoot Hwalk root Hroot)
      as (n & v & Hn & Hv).
    inversion Hwalk as [b ls Hls _]; subst b.
    exists n. intros stack Hle.
    destruct (inspectCarBlocks_readable lib stack root it rawRoot ls
                Hall Hbr Hroot Hls) as (sz & ->).
    rewrite (iterateDag_mono lib (yields it) n stack rawRoot v Hle Hn). simpl.
    destruct (bool_decide (length (yields it) = 1%nat)
              && bool_decide (code root = raw_code)) eqn:Hone.
    + (* one raw block: nothing is reachable but the root *)
      apply andb_true_iff in Hone as [_ Hraw%bool_decide_eq_true].
      pose proof (findBlock_Some _ _ _ Hroot) as [Hcid _].
      rewrite <- Hcid in Hraw.
      rewrite (raw_no_links lib rawRoot Hraw) in Hls. injection Hls as <-.
      assert (Hall_present : forall d, Dag.Reach lib (yields it) root d
                                       -> Dag.present (yields it) d).
      { intros d Hreach.
        inversion Hreach as [|c' b0 ls0 l d' Hc0 Hls0 Hin Hrest]; subst.
        - unfold Dag.present. rewrite Hroot. eauto.
        - rewrite Hroot in Hc0. injection Hc0 as <-.
          rewrite (raw_no_links lib rawRoot Hraw) in Hls0.
          injection Hls0 as <-. inversion Hin. }
      eexists. split; [reflexivity|]. simpl. split; split; auto.
      * discriminate.
      * intros (d & Hreach & Hmiss). exfalso. auto.
    + eexists. split; [reflexivity|]. simpl. destruct v; split; split; auto.
      * discriminate.
      * intros (d & Hreach & Hmiss). exfalso. auto.
      * discriminate.
      * intros Hall_present. destruct Hv as (d & Hreach & Hmiss).
        exfalso. auto.
  - intros stack b pre post missing Hls Hpre Hmiss.
    rewrite (iterateDag_step lib stack b (yields it) _ Hls).
    rewrite forLinks_complete_prefix by exact Hpre.
    simpl. rewrite Hmiss. reflexivity.
Qed.

Lemma dir_Walkable :
  Dag.Walkable Fixtures.lib (yields Fixtures.dirPartIterator) Fixtures.dir.
Proof.
  apply (Dag.walkable _ _ Fixtures.dir [Fixtures.leafCid]); [reflexivity|].
  intros l b' Hin Hfind. apply list_elem_of_singleton in Hin as ->.
  vm_compute in Hfind. discriminate Hfind.
Qed.

Lemma classify_walkable_witness :
  exists n r,
    Car.inspectCarBlocks Fixtures.lib n Fixtures.dirCid Fixtures.dirPartIterator
    = Ok r
    /\ (Car.structure r = Some "Partial"%string
        <-> exists d,
              Dag.Reach Fixtures.lib (yields Fixtures.dirPartIterator)
                Fixtures.dirCid d
              /\ ~ Dag.present (yields Fixtures.dirPartIterator) d).
Proof.
  destruct (classify_walkable Fixtures.lib Fixtures.dirCid
              Fixtures.dirPartIterator Fixtures.dir) as [(n & Hn) _].
  - repeat constructor. vm_compute. discriminate.
  - reflexivity.
  - reflexivity.
  - exact dir_Walkable.
  - destruct (Hn n (le_n n)) as (r & Hr & _ & Hpartial).
    exists n, r. split; assumption.
Defined.

(** C2 as stated fails: the archive with root [jdirCid] is read without
    error, its root is a dag-pb node, and both identifiers reachable from
    the root have a block; yet [inspectCarBlocks] returns neither verdict,
    with any amount of stack: the walk reaches the dag-json block and
    throws. *)
Lemma classify_counterexample :
  Car.carStat Fixtures.lib Fixtures.jdirCar
  = Ok (Fixtures.jdirCid, Fixtures.jdirIterator)
  /\ code Fixtures.jdirCid = pb_code
  /\ (forall d,
        Dag.Reach Fixtures.lib (yields Fixtures.jdirIterator) Fixtures.jdirCid d
        -> Dag.present (yields Fixtures.jdirIterator) d)
  /\ Car.inspectCarBlocks Fixtures.lib 8 Fixtures.jdirCid Fixtures.jdirIterator
     = Throw TypeError
  /\ (forall stack r,
        Car.inspectCarBlocks Fixtures.lib stack Fixtures.jdirCid
          Fixtures.jdirIterator <> Ok r).
Proof.
  split; [reflexivity|]. split; [reflexivity|]. split; [|split].
  - intros d Hreach.
    inversion Hreach as [|c b ls l d' Hc Hls Hin Hrest]; subst.
    + vm_compute. eauto.
    + vm_compute in Hc. injection Hc as <-.
      vm_compute in Hls. injection Hls as <-.
      apply list_elem_of_singleton in Hin as ->.
      inversion Hrest as [|c b ls l d' Hc Hls Hin Hrest']; subst.
      * vm_compute. eauto.
      * vm_compute in Hc. injection Hc as <-.
        vm_compute in Hls. discriminate Hls.
  - reflexivity.
  - intros [|[|stack]] r; vm_compute; discriminate.
Qed.

(** ** A codec that is none of the three *)

(** C1, as the code has it.  Let [c] be an identifier whose codec is none
    of dag-pb, raw and dag-cbor.  As the root of an archive that passes
    the checks of the loop and holds a block for it, [c] makes
    [inspectCarBlocks] throw nothing: it returns a result without
    structure and without size, and [inspectCar] returns the [structure]
    entry of the metadata in its place.  As the identifier of a block the
    walk is called on, [c] makes [iterateDag] throw a [TypeError]; and
    [iterateDag] on a block with a link to [c], when the archive has a
    block for [c] and the links before it were walked as complete, throws
    that error too. *)
Theorem unsupported_codec (lib : Library) (stack : nat) (c : CID) :
  ~ supported (code c) ->
  (forall (it : CarBlockIterator) (rawRoot : Block),
      Forall small (yields it) -> breaks it = false ->
      Car.findBlock (yields it) c = Some rawRoot ->
      Car.inspectCarBlocks lib stack c it = Ok (Car.mkInspection c None None)
      /\ forall (body : bytes) (metadata : gmap string string),
           Car.carStat lib body = Ok (c, it) ->
           Index.inspectCar lib stack body metadata
           = Ok (c, metadata !! "structure"%string, None))
  /\ (forall (b : Block) (blocks : list Block),
        cid b = c -> Car.iterateDag lib (S stack) b blocks = Throw TypeError)
  /\ (forall (parent child : Block) (blocks : list Block) (pre post : list CID),
        Dag.blockLinks lib parent = Some (pre ++ c :: post) ->
        (forall p, p ∈ pre ->
           exists bp, Car.findBlock blocks p = Some bp
                      /\ Car.iterateDag lib (S stack) bp blocks = Ok true) ->
        Car.findBlock blocks c = Some child ->
        Car.iterateDag lib (S (S stack)) parent blocks = Throw TypeError).
Proof.
  intros Hc. pose proof (proj2 (findDecoder_None lib (code c)) Hc) as Hnone.
  assert (Hblock : forall b blocks,
            cid b = c -> Car.iterateDag lib (S stack) b blocks = Throw TypeError).
  { intros b blocks <-. simpl. rewrite Hnone. reflexivity. }
  split; [|split].
  - intros it rawRoot Hall Hbr Hroot.
    pose proof (findBlock_Some _ _ _ Hroot) as [_ Hin].
    assert (Hrun : Car.inspectCarBlocks lib stack c it
                   = Ok (Car.mkInspection c None None)).
    { unfold Car.inspectCarBlocks.
      rewrite (forAwaitBlocks_Ok c it Hall Hbr). simpl.
      rewrite bool_decide_eq_false_2
        by (destruct (yields it); [inversion Hin | discriminate]).
      rewrite Hroot, Hnone. reflexivity. }
    split; [exact Hrun|].
    intros body metadata Hstat. unfold Index.inspectCar.
    rewrite Hstat. simpl. rewrite Hrun. reflexivity.
  - exact Hblock.
  - intros parent child blocks pre post Hls Hpre Hchild.
    rewrite (iterateDag_step lib (S stack) parent blocks _ Hls).
    rewrite forLinks_complete_prefix by exact Hpre.
    pose proof (findBlock_Some _ _ _ Hchild) as [Hcid _].
    cbn [Car.forLinks]. rewrite Hchild, (Hblock child blocks Hcid).
    reflexivity.
Qed.

Lemma unsupported_codec_witness :
  Car.inspectCarBlocks Fixtures.lib 8 Fixtures.jsonCid Fixtures.jsonRootIterator
  = Ok (Car.mkInspection Fixtures.jsonCid None None)
  /\ Car.iterateDag Fixtures.lib 9 Fixtures.json [Fixtures.jdir; Fixtures.json]
     = Throw TypeError.
Proof.
  assert (Hjson : ~ supported (code Fixtures.jsonCid))
    by (unfold supported; vm_compute; intuition discriminate).
  destruct (unsupported_codec Fixtures.lib 8 Fixtures.jsonCid Hjson)
    as (Hroot & Hblock & _).
  split.
  - apply (Hroot Fixtures.jsonRootIterator Fixtures.json).
    + repeat constructor. vm_compute. discriminate.
    + reflexivity.
    + reflexivity.
  - apply Hblock. reflexivity.
Defined.

(** C1 as stated fails: the archive whose root is the dag-json leaf is read
    and inspected without any error.  The inspection returns a result with
    no structure, [inspectCar] hands the handler whatever the metadata hold
    (here nothing), and the handler returns normally. *)
Lemma unsupported_root_counterexample :
  ~ supported (code Fixtures.jsonCid)
  /\ Car.carStat Fixtures.lib Fixtures.jsonRootCar
     = Ok (Fixtures.jsonCid, Fixtures.jsonRootIterator)
  /\ Car.inspectCarBlocks Fixtures.lib 8 Fixtures.jsonCid
       Fixtures.jsonRootIterator
     = Ok (Car.mkInspection Fixtures.jsonCid None None)
  /\ Index.inspectCar Fixtures.lib 8 Fixtures.jsonRootCar ∅
     = Ok (Fixtures.jsonCid, None, None)
  /\ Index.main Fixtures.lib (Fixtures.world Fixtures.jsonRootCar ∅ []) 8
     = mkIO [GetObject] (Ok (Index.mkResult Fixtures.jsonCid None None))
  /\ Index.main Fixtures.lib
       (Fixtures.world Fixtures.jsonRootCar
          {[ "structure"%string := "Complete"%string ]} []) 8
     = mkIO [GetObject; Fetch Fixtures.jsonCid]
         (Ok (Index.mkResult Fixtures.jsonCid (Some "Complete"%string)
                (Some (mkResponse true)))).
Proof.
  split; [unfold supported; vm_compute; intuition discriminate|].
  repeat split; vm_compute; reflexivity.
Qed.

(** ** The policy of the handler *)

Lemma accumSize_total (contents : list ListedObject) (acc : Z) :
  fold_left (fun acc obj => acc + Size obj) contents acc
  = acc + total (Size <$> contents).
Proof.
  revert acc. induction contents as [|obj contents IH]; intros acc.
  - change (acc = acc + 0). lia.
  - change (fold_left (fun acc obj => acc + Size obj) contents (acc + Size obj)
            = acc + (Size obj + total (Size <$> contents))).
    rewrite IH. lia.
Qed.

Lemma getDirectoryStat_Ok (w : World) (contents : list ListedObject) :
  s3_listObjectsV2 w = Ok contents ->
  Index.getDirectoryStat w = mkIO [ListObjectsV2] (Ok (total (Size <$> contents))).
Proof.
  intros Hlist. unfold Index.getDirectoryStat, request, mbind, IO_bind. simpl.
  rewrite Hlist. simpl. rewrite accumSize_total. reflexivity.
Qed.

Lemma fetchFromGateway_calls (w : World) (root : CID) (structure : option string) :
  calls (Index.fetchFromGateway w root structure) = [Fetch root].
Proof.
  unfold Index.fetchFromGateway, request, mbind, IO_bind. simpl.
  destruct (gateway w root) as [[[|]]|e]; reflexivity.
Qed.

(** The four ways through the policy. *)
Lemma decide_Complete (w : World) (root : CID) (size : option Z) :
  Index.decide w root (Some "Complete"%string) size
  = Index.fetchFromGateway w root (Some "Complete"%string).
Proof. reflexivity. Qed.

Lemma decide_no_size (w : World) (root : CID) (structure : option string)
    (size : option Z) :
  structure <> Some "Complete"%string -> not_ size = true ->
  Index.decide w root structure size
  = mkIO [] (Ok (Index.mkResult root structure None)).
Proof.
  intros Hs Hz. unfold Index.decide.
  rewrite bool_decide_eq_false_2 by exact Hs. simpl. rewrite Hz. reflexivity.
Qed.

Lemma decide_too_large (w : World) (root : CID) (structure : option string)
    (n : Z) :
  structure <> Some "Complete"%string -> n > Index.MAX_SIZE_TO_ATTEMPT ->
  Index.decide w root structure (Some n)
  = mkIO [] (Ok (Index.mkResult root structure None)).
Proof.
  intros Hs Hn. unfold Index.decide.
  rewrite bool_decide_eq_false_2 by exact Hs. simpl.
  destruct (bool_decide (n = 0)); [reflexivity|].
  rewrite bool_decide_eq_true_2 by exact Hn. reflexivity.
Qed.

Lemma decide_compare (w : World) (root : CID) (structure : option string)
    (n : Z) (contents : list ListedObject) :
  structure <> Some "Complete"%string -> n <> 0 ->
  n <= Index.MAX_SIZE_TO_ATTEMPT ->
  s3_listObjectsV2 w = Ok contents ->
  Index.decide w root structure (Some n)
  = if bool_decide (n > total (Size <$> contents))
    then mkIO [ListObjectsV2] (Ok (Index.mkResult root structure None))
    else mkIO (ListObjectsV2 :: calls (Index.fetchFromGateway w root structure))
              (outcome (Index.fetchFromGateway w root structure)).
Proof.
  intros Hs Hn0 Hmax Hlist. unfold Index.decide.
  rewrite bool_decide_eq_false_2 by exact Hs. simpl.
  rewrite (bool_decide_eq_false_2 (n = 0)) by exact Hn0.
  rewrite (bool_decide_eq_false_2 (n > Index.MAX_SIZE_TO_ATTEMPT)) by lia.
  rewrite (getDirectoryStat_Ok w contents Hlist).
  unfold mbind, IO_bind. simpl.
  destruct (bool_decide (n > total (Size <$> contents))); reflexivity.
Qed.

(** [main] is the request for the object, the inspection, then the
    policy. *)
Lemma main_decide (lib : Library) (w : World) (stack : nat) (body : bytes)
    (metadata : gmap string string) (root : CID) (structure : option string)
    (size : option Z) :
  s3_getObject w = Ok (body, metadata) ->
  Index.inspectCar lib stack body metadata = Ok (root, structure, size) ->
  Index.main lib w stack
  = mkIO (GetObject :: calls (Index.decide w root structure size))
         (outcome (Index.decide w root structure size)).
Proof.
  intros Hget Hinspect.
  unfold Index.main, Index.getS3Object, request, local, mbind, IO_bind. simpl.
  rewrite Hget. simpl. rewrite Hinspect. reflexivity.
Qed.

(** C4.  With the structure [Complete], the policy goes straight to the
    fetch from the gateway: the run is that of the fetch, its one request
    is the GET of the root, and the directory is not listed, whatever the
    size and whatever the store would list.  A handler whose inspection
    finds [Complete] therefore requests the object and then the root from
    the gateway. *)
Theorem complete_attempts (w : World) (root : CID) (size : option Z) :
  Index.decide w root (Some "Complete"%string) size
  = Index.fetchFromGateway w root (Some "Complete"%string)
  /\ calls (Index.decide w root (Some "Complete"%string) size) = [Fetch root]
  /\ decision (Index.decide w root (Some "Complete"%string) size) = Some Attempt
  /\ listed (Index.decide w root (Some "Complete"%string) size) = false
  /\ (forall (lib : Library) (stack : nat) (body : bytes)
        (metadata : gmap string string),
        s3_getObject w = Ok (body, metadata) ->
        Index.inspectCar lib stack body metadata
        = Ok (root, Some "Complete"%string, size) ->
        calls (Index.main lib w stack) = [GetObject; Fetch root]).
Proof.
  pose proof (fetchFromGateway_calls w root (Some "Complete"%string)) as Hcalls.
  rewrite decide_Complete. split; [reflexivity|]. split; [exact Hcalls|].
  split; [|split].
  - unfold decision. rewrite Hcalls. reflexivity.
  - unfold listed. rewrite Hcalls. reflexivity.
  - intros lib stack body metadata Hget Hinspect.
    rewrite (main_decide lib w stack body metadata root _ size Hget Hinspect).
    rewrite decide_Complete. simpl. rewrite Hcalls. reflexivity.
Qed.

Lemma complete_attempts_witness :
  calls (Index.main Fixtures.lib (Fixtures.world Fixtures.rawCar ∅ []) 8)
  = [GetObject; Fetch Fixtures.leafCid].
Proof.
  apply (complete_attempts (Fixtures.world Fixtures.rawCar ∅ [])
           Fixtures.leafCid None) with (body := Fixtures.rawCar) (metadata := ∅);
    reflexivity.
Defined.

(** C5.  The ceiling is 104,857,600 bytes.  With a structure other than
    [Complete], [Partial] in particular, and a size above the ceiling, the
    policy returns without a response and without any request: no fetch is
    issued and the directory is not listed, so what the store would list,
    be it more than the size, plays no part. *)
Theorem over_ceiling_defers (w : World) (root : CID) (structure : option string)
    (n : Z) :
  structure <> Some "Complete"%string -> n > 104857600 ->
  Index.MAX_SIZE_TO_ATTEMPT = 104857600
  /\ Index.decide w root structure (Some n)
     = mkIO [] (Ok (Index.mkResult root structure None))
  /\ decision (Index.decide w root structure (Some n)) = Some Defer
  /\ listed (Index.decide w root structure (Some n)) = false.
Proof.
  intros Hs Hn. split; [reflexivity|].
  rewrite (decide_too_large w root structure n Hs Hn).
  repeat split; reflexivity.
Qed.

Lemma over_ceiling_defers_witness :
  decision
    (Index.decide
       (Fixtures.world Fixtures.dirPartCar ∅ [mkListed "a.car" 200000000])
       Fixtures.dirCid (Some "Partial"%string) (Some 104857601))
  = Some Defer.
Proof.
  apply (over_ceiling_defers
           (Fixtures.world Fixtures.dirPartCar ∅ [mkListed "a.car" 200000000])
           Fixtures.dirCid (Some "Partial"%string) 104857601);
    [discriminate | lia].
Defined.

(** ** Further properties of the inspection *)

(** An archive of one block within the limit, the raw root itself, is
    [Complete] and has no size; no walk is made, so no call stack is
    needed. *)
Theorem single_raw_block_complete (lib : Library) (stack : nat) (root : CID)
    (it : CarBlockIterator) (b : Block) :
  yields it = [b] -> breaks it = false -> small b ->
  cid b = root -> code root = raw_code ->
  Car.inspectCarBlocks lib stack root it
  = Ok (Car.mkInspection root (Some "Complete"%string) None).
Proof.
  intros Hy Hbr Hsmall Hcid Hraw.
  assert (Hroot : Car.findBlock (yields it) root = Some b).
  { rewrite Hy. unfold Car.findBlock; simpl.
    rewrite (proj2 (equals_true (cid b) root) Hcid). reflexivity. }
  assert (Hall : Forall small (yields it)) by (rewrite Hy; repeat constructor; auto).
  assert (Hls : Dag.blockLinks lib b = Some [])
    by (apply raw_no_links; rewrite Hcid; exact Hraw).
  destruct (inspectCarBlocks_readable lib stack root it b [] Hall Hbr Hroot Hls)
    as (sz & Hrun).
  rewrite Hy in Hrun. simpl in Hrun.
  rewrite (bool_decide_eq_true_2 (code root = raw_code)) in Hrun by exact Hraw.
  simpl in Hrun.
  destruct (inspectCarBlocks_size lib stack root it _ Hrun)
    as (_ & _ & [(Hpb & _)|(_ & Hsz)]).
  - rewrite Hraw in Hpb. discriminate Hpb.
  - simpl in Hsz. rewrite Hrun, Hsz. reflexivity.
Qed.

Lemma single_raw_block_complete_witness :
  Car.inspectCarBlocks Fixtures.lib 0 Fixtures.leafCid Fixtures.rawIterator
  = Ok (Car.mkInspection Fixtures.leafCid (Some "Complete"%string) None).
Proof.
  apply (single_raw_block_complete Fixtures.lib 0 Fixtures.leafCid
           Fixtures.rawIterator Fixtures.leaf); try reflexivity.
  vm_compute. discriminate.
Defined.

(** An archive that yields no block is refused as empty; one that yields
    blocks within the limit, none of them with the root's identifier, is
    refused for its missing root block. *)
Theorem empty_or_rootless_archive (lib : Library) (stack : nat) (root : CID)
    (it : CarBlockIterator) :
  breaks it = false -> Forall small (yields it) ->
  (yields it = [] -> Car.inspectCarBlocks lib stack root it = Throw EmptyCAR)
  /\ (yields it <> [] -> Car.findBlock (yields it) root = None ->
      Car.inspectCarBlocks lib stack root it = Throw MissingRootBlock).
Proof.
  intros Hbr Hall. unfold Car.inspectCarBlocks.
  rewrite (forAwaitBlocks_Ok root it Hall Hbr). simpl. split.
  - intros ->. reflexivity.
  - intros Hne Hroot.
    rewrite bool_decide_eq_false_2
      by (destruct (yields it); [contradiction | discriminate]).
    rewrite Hroot. reflexivity.
Qed.

Lemma empty_or_rootless_archive_witness :
  Car.inspectCarBlocks Fixtures.lib 8 Fixtures.dirCid
    (mkIterator [Fixtures.dirCid] [] false) = Throw EmptyCAR
  /\ Car.inspectCarBlocks Fixtures.lib 8 Fixtures.dirCid Fixtures.rawIterator
     = Throw MissingRootBlock.
Proof.
  split.
  - apply (empty_or_rootless_archive Fixtures.lib 8 Fixtures.dirCid
             (mkIterator [Fixtures.dirCid] [] false));
      [reflexivity | constructor | reflexivity].
  - apply (empty_or_rootless_archive Fixtures.lib 8 Fixtures.dirCid
             Fixtures.rawIterator);
      [reflexivity | repeat constructor; vm_compute; discriminate
      | discriminate | reflexivity].
Defined.

(** ** The directory that is listed *)

Lemma append_cons (c : ascii) (a b : string) :
  (String c a +:+ b = String c (a +:+ b))%string.
Proof. reflexivity. Qed.

Lemma hasSlash_app (a b : string) :
  Keys.hasSlash (a +:+ b) = Keys.hasSlash a || Keys.hasSlash b.
Proof.
  induction a as [|c a IH]; simpl; [reflexivity|].
  rewrite IH. now rewrite orb_assoc.
Qed.

Lemma removeLastSegment_no_slash (key : string) :
  Keys.hasSlash key = false -> Keys.removeLastSegment key = ""%string.
Proof.
  destruct key as [|c key]; simpl; [reflexivity|].
  intros H. rewrite H. reflexivity.
Qed.

Lemma removeLastSegment_dir (dir name : string) :
  Keys.hasSlash name = false ->
  Keys.removeLastSegment (dir +:+ String "/" name) = (dir +:+ String "/" "")%string.
Proof.
  intros Hname. induction dir as [|c dir IH]; simpl.
  - rewrite (removeLastSegment_no_slash name Hname). reflexivity.
  - rewrite hasSlash_app. simpl. rewrite !orb_true_r, IH. reflexivity.
Qed.

Lemma dropLast_dir (dir : string) :
  Keys.dropLast (dir +:+ String "/" "") = dir.
Proof.
  induction dir as [|c dir IH]; simpl; [reflexivity|].
  rewrite IH. destruct dir; reflexivity.
Qed.

Lemma removeLastSegment_split (key : string) :
  exists name, Keys.hasSlash name = false
               /\ key = (Keys.removeLastSegment key +:+ name)%string.
Proof.
  induction key as [|c key (name & Hname & IH)]; simpl.
  - exists ""%string. auto.
  - destruct (Ascii.eqb c "/" || Keys.hasSlash key) eqn:Hc.
    + exists name. split; [exact Hname|]. rewrite append_cons. now rewrite <- IH.
    + exists (String c key). split; [exact Hc | reflexivity].
Qed.

(** X3.  The prefix [getDirectoryStat] lists under.  For a key made of a
    directory, a slash and a name without slash, it is the directory,
    whatever slashes the directory holds.  For a key without slash it is
    the empty string, the prefix of every key of the bucket.  And every key
    with a slash is its prefix, a slash, and a name without slash. *)
Theorem directoryPrefix_of_key (dir name : string) :
  Keys.hasSlash name = false ->
  Keys.directoryPrefix (dir +:+ "/" +:+ name) = dir
  /\ Keys.directoryPrefix name = ""%string
  /\ (forall key : string,
        Keys.hasSlash key = true ->
        exists name' : string,
          Keys.hasSlash name' = false
          /\ key = (Keys.directoryPrefix key +:+ "/" +:+ name')%string).
Proof.
  intros Hname. unfold Keys.directoryPrefix. split; [|split].
  - change (dir +:+ "/" +:+ name)%string with (dir +:+ String "/" name)%string.
    rewrite (removeLastSegment_dir dir name Hname). apply dropLast_dir.
  - rewrite (removeLastSegment_no_slash name Hname). reflexivity.
  - intros key Hkey.
    destruct (removeLastSegment_split key) as (name' & Hname' & Hsplit).
    exists name'. split; [exact Hname'|].
    assert (Hends : exists d,
               Keys.removeLastSegment key = (d +:+ String "/" "")%string).
    { clear name' Hname' Hsplit.
      induction key as [|c key IH]; simpl in *; [discriminate|].
      rewrite Hkey.
      destruct (Keys.hasSlash key) eqn:Hrest.
      - destruct (IH eq_refl) as (d & ->). exists (String c d). reflexivity.
      - rewrite orb_false_r in Hkey. apply Ascii.eqb_eq in Hkey as ->.
        rewrite (removeLastSegment_no_slash key Hrest).
        exists ""%string. reflexivity. }
    destruct Hends as (d & Hd). rewrite Hd, dropLast_dir.
    rewrite Hsplit at 1. rewrite Hd.
    change (d +:+ "/" +:+ name')%string with (d +:+ String "/" name')%string.
    clear. induction d as [|c d IH]; [reflexivity|].
    rewrite !append_cons. now rewrite IH.
Qed.

Lemma directoryPrefix_of_key_witness :
  Keys.directoryPrefix
    ("raw/bafybeif3hyrtm2skjmldufjid3myfp37sxyqbtz7xe3f2fqyd7ugi33b2a/102702852462097292"
     +:+ "/" +:+ "ciqg66cgf5pib7qhdczhhzlpb3z2dk5xeo4l6zlel7snh3j4v3g7l5i.car")
  = "raw/bafybeif3hyrtm2skjmldufjid3myfp37sxyqbtz7xe3f2fqyd7ugi33b2a/102702852462097292"%string.
Proof.
  apply (directoryPrefix_of_key
           "raw/bafybeif3hyrtm2skjmldufjid3myfp37sxyqbtz7xe3f2fqyd7ugi33b2a/102702852462097292"
           "ciqg66cgf5pib7qhdczhhzlpb3z2dk5xeo4l6zlel7snh3j4v3g7l5i.car").
  reflexivity.
Defined.

(** ** Runs of the handler *)

Lemma fetchFromGateway_run (w : World) (root : CID) (s : option string) :
  Index.fetchFromGateway w root s
  = match gateway w root with
    | Ok resp =>
        if ok resp
        then mkIO [Fetch root] (Ok (Index.mkResult root s (Some resp)))
        else mkIO [Fetch root] (Throw FailedToFetch)
    | Throw e => mkIO [Fetch root] (Throw e)
    end.
Proof.
  unfold Index.fetchFromGateway, request, mbind, IO_bind. simpl.
  destruct (gateway w root) as [[[|]]|e]; reflexivity.
Qed.

Lemma decide_run (w : World) (root : CID) (s : option string) (sz : option Z) :
  Index.decide w root s sz
  = if bool_decide (s = Some "Complete"%string)
    then Index.fetchFromGateway w root s
    else if not_ sz || gt sz Index.MAX_SIZE_TO_ATTEMPT
    then mkIO [] (Ok (Index.mkResult root s None))
    else match s3_listObjectsV2 w with
         | Throw e => mkIO [ListObjectsV2] (Throw e)
         | Ok contents =>
             if gt sz (total (Size <$> contents))
             then mkIO [ListObjectsV2] (Ok (Index.mkResult root s None))
             else mkIO (ListObjectsV2 :: calls (Index.fetchFromGateway w root s))
                       (outcome (Index.fetchFromGateway w root s))
         end.
Proof.
  unfold Index.decide. case_bool_decide; simpl; [reflexivity|].
  destruct (not_ sz); simpl; [reflexivity|].
  destruct (gt sz Index.MAX_SIZE_TO_ATTEMPT); [reflexivity|].
  destruct (s3_listObjectsV2 w) as [contents|e] eqn:Hlist.
  - rewrite (getDirectoryStat_Ok w contents Hlist).
    unfold mbind, IO_bind. simpl.
    destruct (gt sz (total (Size <$> contents))); reflexivity.
  - unfold Index.getDirectoryStat, request, mbind, IO_bind. simpl.
    rewrite Hlist. reflexivity.
Qed.

Lemma main_run (lib : Library) (w : World) (stack : nat) :
  Index.main lib w stack
  = match s3_getObject w with
    | Throw e => mkIO [GetObject] (Throw e)
    | Ok (body, metadata) =>
        match Index.inspectCar lib stack body metadata with
        | Throw e => mkIO [GetObject] (Throw e)
        | Ok (root, s, sz) =>
            mkIO (GetObject :: calls (Index.decide w root s sz))
                 (outcome (Index.decide w root s sz))
        end
    end.
Proof.
  unfold Index.main, Index.getS3Object, request, local, mbind, IO_bind. simpl.
  destruct (s3_getObject w) as [[body metadata]|e]; simpl; [|reflexivity].
  destruct (Index.inspectCar lib stack body metadata) as [[[root s] sz]|e];
    reflexivity.
Qed.

Lemma carStat_Ok (lib : Library) (body : bytes) (root : CID)
    (it : CarBlockIterator) :
  Car.carStat lib body = Ok (root, it) ->
  fromBytes lib body = Some it /\ getRoots it = [root].
Proof.
  unfold Car.carStat.
  destruct (fromBytes lib body) as [it'|]; simpl; [|discriminate].
  case_bool_decide as H0; [discriminate|].
  case_bool_decide as H1; [discriminate|].
  destruct (getRoots it') as [|r [|r' rs]] eqn:Hroots; simpl in *;
    [contradiction | | lia].
  intros [= <- <-]. auto.
Qed.

Lemma inspectCar_Ok (lib : Library) (stack : nat) (body : bytes)
    (metadata : gmap string string) (root : CID) (s : option string)
    (sz : option Z) :
  Index.inspectCar lib stack body metadata = Ok (root, s, sz) ->
  exists it r,
    Car.carStat lib body = Ok (root, it)
    /\ Car.inspectCarBlocks lib stack root it = Ok r
    /\ s = orElse (Car.structure r) (metadata !! "structure"%string)
    /\ sz = Car.size r.
Proof.
  unfold Index.inspectCar.
  destruct (Car.carStat lib body) as [[root' it]|e]; simpl; [|discriminate].
  destruct (Car.inspectCarBlocks lib stack root' it) as [r|e] eqn:Hr; simpl;
    [|discriminate].
  intros [= <- <- <-]. exists it, r. auto.
Qed.

(** The calls a run of the policy makes. *)
Lemma decide_calls (w : World) (root : CID) (s : option string) (sz : option Z) :
  calls (Index.decide w root s sz) = []
  \/ calls (Index.decide w root s sz) = [ListObjectsV2]
  \/ calls (Index.decide w root s sz) = [Fetch root]
  \/ calls (Index.decide w root s sz) = [ListObjectsV2; Fetch root].
Proof.
  rewrite decide_run. case_bool_decide.
  - right; right; left. apply fetchFromGateway_calls.
  - destruct (not_ sz || gt sz Index.MAX_SIZE_TO_ATTEMPT); [left; reflexivity|].
    destruct (s3_listObjectsV2 w) as [contents|e]; [|right; left; reflexivity].
    destruct (gt sz (total (Size <$> contents))); simpl.
    + right; left; reflexivity.
    + right; right; right. rewrite fetchFromGateway_calls. reflexivity.
Qed.

(** X4.  Whatever the store, the gateway and the archive: the handler
    first requests the object, then at most once the listing of the
    directory, then at most once the gateway, in this order and nothing
    else.  A root it fetches is the one root the header of the object it
    got declares. *)
Theorem main_requests (lib : Library) (w : World) (stack : nat) :
  (calls (Index.main lib w stack) = [GetObject]
   \/ calls (Index.main lib w stack) = [GetObject; ListObjectsV2]
   \/ exists root,
        calls (Index.main lib w stack) = [GetObject; Fetch root]
        \/ calls (Index.main lib w stack) = [GetObject; ListObjectsV2; Fetch root])
  /\ (forall root : CID,
        Fetch root ∈ calls (Index.main lib w stack) ->
        exists body metadata it,
          s3_getObject w = Ok (body, metadata)
          /\ fromBytes lib body = Some it
          /\ getRoots it = [root]).
Proof.
  rewrite main_run.
  destruct (s3_getObject w) as [[body metadata]|e]; simpl.
  - destruct (Index.inspectCar lib stack body metadata) as [[[root s] sz]|e]
      eqn:Hinspect; simpl.
    + split.
      * destruct (decide_calls w root s sz) as [H|[H|[H|H]]]; rewrite H; eauto.
      * intros root' Hin.
        apply inspectCar_Ok in Hinspect as (it & _ & Hstat%carStat_Ok & _).
        assert (root' = root) as ->.
        { apply elem_of_cons in Hin as [Hin|Hin]; [discriminate|].
          destruct (decide_calls w root s sz) as [H|[H|[H|H]]];
            rewrite H in Hin;
            repeat (apply elem_of_cons in Hin as [Hin|Hin]; [congruence|]);
            inversion Hin. }
        exists body, metadata, it. tauto.
    + split; [auto|]. intros root Hin.
      apply elem_of_cons in Hin as [Hin|Hin]; [discriminate | inversion Hin].
  - split; [auto|]. intros root Hin.
    apply elem_of_cons in Hin as [Hin|Hin]; [discriminate | inversion Hin].
Qed.

(** X5.  An object that is not an archive the reader accepts, with exactly
    one declared root, every block within the limit, no failure of the
    reader and a block for the root, makes the handler throw after its
    first request: the directory is not listed and the gateway is not
    contacted. *)
Theorem rejected_archive_not_fetched (lib : Library) (w : World) (stack : nat)
    (body : bytes) (metadata : gmap string string) :
  s3_getObject w = Ok (body, metadata) ->
  ~ (exists it root,
       fromBytes lib body = Some it /\ getRoots it = [root]
       /\ Forall small (yields it) /\ breaks it = false
       /\ is_Some (Car.findBlock (yields it) root)) ->
  calls (Index.main lib w stack) = [GetObject]
  /\ exists e, outcome (Index.main lib w stack) = Throw e.
Proof.
  intros Hget Hbad. rewrite main_run, Hget.
  destruct (Index.inspectCar lib stack body metadata) as [[[root s] sz]|e]
    eqn:Hinspect; simpl; [|eauto].
  exfalso. apply Hbad.
  apply inspectCar_Ok in Hinspect as (it & r & Hstat & Hr & _).
  apply carStat_Ok in Hstat as [Hread Hroots].
  apply inspectCarBlocks_Ok in Hr as (Hall & Hbr & _ & rawRoot & Hroot & _).
  exists it, root. rewrite Hroot. eauto 6.
Qed.

Lemma rejected_archive_not_fetched_witness :
  calls (Index.main Fixtures.lib (Fixtures.world Fixtures.noRootsCar ∅ []) 8)
  = [GetObject]
  /\ exists e,
       outcome (Index.main Fixtures.lib
                  (Fixtures.world Fixtures.noRootsCar ∅ []) 8) = Throw e.
Proof.
  apply (rejected_archive_not_fetched Fixtures.lib
           (Fixtures.world Fixtures.noRootsCar ∅ []) 8 Fixtures.noRootsCar ∅).
  - reflexivity.
  - intros (it & root & Hread & Hroots & _).
    vm_compute in Hread. injection Hread as <-. discriminate Hroots.
Defined.

(** A run of the policy either ends as the fetch it makes, or makes none
    and returns without a response or throws. *)
Lemma decide_fetch_or_not (w : World) (root : CID) (s : option string)
    (sz : option Z) :
  ((calls (Index.decide w root s sz) = [Fetch root]
    \/ calls (Index.decide w root s sz) = [ListObjectsV2; Fetch root])
   /\ outcome (Index.decide w root s sz)
      = outcome (Index.fetchFromGateway w root s))
  \/ ((calls (Index.decide w root s sz) = []
       \/ calls (Index.decide w root s sz) = [ListObjectsV2])
      /\ (outcome (Index.decide w root s sz) = Ok (Index.mkResult root s None)
          \/ exists e, outcome (Index.decide w root s sz) = Throw e)).
Proof.
  rewrite decide_run. case_bool_decide.
  - left. rewrite fetchFromGateway_calls. auto.
  - destruct (not_ sz || gt sz Index.MAX_SIZE_TO_ATTEMPT); [right; simpl; auto|].
    destruct (s3_listObjectsV2 w) as [contents|e]; [|right; simpl; eauto].
    destruct (gt sz (total (Size <$> contents))); simpl; [right; auto|].
    left. rewrite fetchFromGateway_calls. auto.
Qed.

(** X6.  How a run that contacts the gateway ends: with the gateway's
    response in the result when the response is ok, with the error
    [Failed to fetch file from gateway] when it is not, and with the error
    of the request when the request itself fails.  And a result carries a
    response only when the gateway was asked for the root in the result and
    answered ok. *)
Theorem fetch_outcome (lib : Library) (w : World) (stack : nat) :
  (forall root : CID,
     Fetch root ∈ calls (Index.main lib w stack) ->
     match gateway w root with
     | Ok resp =>
         if ok resp
         then exists s,
                outcome (Index.main lib w stack)
                = Ok (Index.mkResult root s (Some resp))
         else outcome (Index.main lib w stack) = Throw FailedToFetch
     | Throw e => outcome (Index.main lib w stack) = Throw e
     end)
  /\ (forall r resp,
        outcome (Index.main lib w stack) = Ok r ->
        Index.response r = Some resp ->
        ok resp = true /\ gateway w (Index.rootCid r) = Ok resp
        /\ Fetch (Index.rootCid r) ∈ calls (Index.main lib w stack)).
Proof.
  rewrite main_run.
  destruct (s3_getObject w) as [[body metadata]|e]; simpl.
  2:{ split; [|discriminate]. intros root Hin.
      apply elem_of_cons in Hin as [Hin|Hin]; [discriminate | inversion Hin]. }
  destruct (Index.inspectCar lib stack body metadata) as [[[root' s] sz]|e];
    simpl.
  2:{ split; [|discriminate]. intros root Hin.
      apply elem_of_cons in Hin as [Hin|Hin]; [discriminate | inversion Hin]. }
  destruct (decide_fetch_or_not w root' s sz)
    as [[Hcalls ->]|[Hcalls Hout]].
  - rewrite fetchFromGateway_run. split.
    + intros root Hin.
      assert (root = root') as ->.
      { apply elem_of_cons in Hin as [Hin|Hin]; [discriminate|].
        destruct Hcalls as [H|H]; rewrite H in Hin;
          repeat (apply elem_of_cons in Hin as [Hin|Hin]; [congruence|]);
          inversion Hin. }
      destruct (gateway w root') as [[[|]]|e]; simpl; eauto.
    + intros r resp.
      destruct (gateway w root') as [[[|]]|e] eqn:Hgw; simpl; try discriminate.
      intros [= <-] [= <-]. simpl. rewrite Hgw. repeat split.
      right. destruct Hcalls as [-> | ->]; [left | right; left].
  - split.
    + intros root Hin.
      apply elem_of_cons in Hin as [Hin|Hin]; [discriminate|].
      destruct Hcalls as [H|H]; rewrite H in Hin;
        repeat (apply elem_of_cons in Hin as [Hin|Hin]; [congruence|]);
        inversion Hin.
    + intros r resp Hr Hresp.
      destruct Hout as [Hout|[e Hout]]; rewrite Hout in Hr;
        [|discriminate].
      injection Hr as <-. discriminate Hresp.
Qed.

Lemma fetch_outcome_witness :
  exists s,
    outcome (Index.main Fixtures.lib
               (Fixtures.world Fixtures.dirPartCar ∅
                  [mkListed "a.car" 49; mkListed "b.car" 49]) 8)
    = Ok (Index.mkResult Fixtures.dirCid s (Some (mkResponse true))).
Proof.
  apply (proj1 (fetch_outcome Fixtures.lib
                  (Fixtures.world Fixtures.dirPartCar ∅
                     [mkListed "a.car" 49; mkListed "b.car" 49]) 8)
           Fixtures.dirCid).
  vm_compute. right. right. left.
Defined.

Lemma inspectCarBlocks_unsupported (lib : Library) (stack : nat) (root : CID)
    (it : CarBlockIterator) (rawRoot : Block) :
  ~ supported (code root) ->
  Forall small (yields it) -> breaks it = false ->
  Car.findBlock (yields it) root = Some rawRoot ->
  Car.inspectCarBlocks lib stack root it = Ok (Car.mkInspection root None None).
Proof.
  intros Hc Hall Hbr Hroot.
  pose proof (findBlock_Some _ _ _ Hroot) as [_ Hin].
  unfold Car.inspectCarBlocks.
  rewrite (forAwaitBlocks_Ok root it Hall Hbr). simpl.
  rewrite bool_decide_eq_false_2
    by (destruct (yields it); [inversion Hin | discriminate]).
  rewrite Hroot, (proj2 (findDecoder_None lib (code root)) Hc). reflexivity.
Qed.

(** X7.  For an archive whose root has none of the three codecs (and that
    passes the checks of the loop and holds a block for the root), the
    metadata of the object alone decide what the handler does: with the
    [structure] entry [Complete] it fetches the root from the gateway
    without listing the directory; with any other entry, or none, it
    returns that entry without a response, having made no request but the
    first. *)
Theorem unsupported_root_follows_metadata (lib : Library) (w : World)
    (stack : nat) (body : bytes) (metadata : gmap string string)
    (it : CarBlockIterator) (root : CID) (rawRoot : Block) :
  s3_getObject w = Ok (body, metadata) ->
  Car.carStat lib body = Ok (root, it) ->
  ~ supported (code root) ->
  Forall small (yields it) -> breaks it = false ->
  Car.findBlock (yields it) root = Some rawRoot ->
  (metadata !! "structure"%string = Some "Complete"%string ->
   calls (Index.main lib w stack) = [GetObject; Fetch root])
  /\ (metadata !! "structure"%string <> Some "Complete"%string ->
      Index.main lib w stack
      = mkIO [GetObject]
          (Ok (Index.mkResult root (metadata !! "structure"%string) None))).
Proof.
  intros Hget Hstat Hc Hall Hbr Hroot.
  assert (Hinspect : Index.inspectCar lib stack body metadata
                     = Ok (root, metadata !! "structure"%string, None)).
  { unfold Index.inspectCar. rewrite Hstat. simpl.
    rewrite (inspectCarBlocks_unsupported lib stack root it rawRoot
               Hc Hall Hbr Hroot). reflexivity. }
  rewrite main_run, Hget, Hinspect, decide_run. split.
  - intros Hmeta. rewrite bool_decide_eq_true_2 by exact Hmeta.
    simpl. rewrite fetchFromGateway_calls. reflexivity.
  - intros Hmeta. rewrite bool_decide_eq_false_2 by exact Hmeta. reflexivity.
Qed.

Lemma unsupported_root_follows_metadata_witness :
  calls (Index.main Fixtures.lib
           (Fixtures.world Fixtures.jsonRootCar
              {[ "structure"%string := "Complete"%string ]} []) 8)
  = [GetObject; Fetch Fixtures.jsonCid].
Proof.
  apply (unsupported_root_follows_metadata Fixtures.lib
           (Fixtures.world Fixtures.jsonRootCar
              {[ "structure"%string := "Complete"%string ]} []) 8
           Fixtures.jsonRootCar {[ "structure"%string := "Complete"%string ]}
           Fixtures.jsonRootIterator Fixtures.jsonCid Fixtures.json);
    try reflexivity.
  - unfold supported; vm_compute; intuition discriminate.
  - repeat constructor. vm_compute. discriminate.
Defined.

Lemma total_app (a b : list Z) : total (a ++ b) = total a + total b.
Proof.
  induction a as [|x a IH]; [reflexivity|].
  change (x + total (a ++ b) = x + total a + total b). lia.
Qed.

Lemma total_nonneg (sizes : list ListedObject) :
  Forall (fun obj => 0 <= Size obj) sizes -> 0 <= total (Size <$> sizes).
Proof.
  induction 1 as [|obj sizes Hobj _ IH]; [reflexivity|].
  change (0 <= Size obj + total (Size <$> sizes)). lia.
Qed.

(** X8.  Objects added to the directory never turn a fetch into a
    return: if the policy fetches with one listing, it fetches with any
    listing that extends it by objects of sizes 0 or more. *)
Theorem more_stored_keeps_attempt (w w' : World) (root : CID)
    (s : option string) (sz : option Z) (contents more : list ListedObject) :
  s3_listObjectsV2 w = Ok contents ->
  s3_listObjectsV2 w' = Ok (contents ++ more) ->
  Forall (fun obj => 0 <= Size obj) more ->
  decision (Index.decide w root s sz) = Some Attempt ->
  decision (Index.decide w' root s sz) = Some Attempt.
Proof.
  intros Hlist Hlist' Hmore.
  rewrite !decide_run, Hlist, Hlist'. unfold decision.
  case_bool_decide.
  - rewrite !fetchFromGateway_calls. auto.
  - destruct (not_ sz || gt sz Index.MAX_SIZE_TO_ATTEMPT); [discriminate|].
    destruct (gt sz (total (Size <$> contents))) eqn:Hcmp; [discriminate|].
    intros _.
    assert (Hcmp' : gt sz (total (Size <$> contents ++ more)) = false).
    { destruct sz as [n|]; [|reflexivity]. simpl in *.
      apply bool_decide_eq_false in Hcmp. apply bool_decide_eq_false.
      rewrite fmap_app, total_app.
      pose proof (total_nonneg more Hmore). lia. }
    rewrite Hcmp'. simpl. rewrite fetchFromGateway_calls. reflexivity.
Qed.

Lemma more_stored_keeps_attempt_witness :
  decision
    (Index.decide
       (Fixtures.world Fixtures.dirPartCar ∅
          [mkListed "a.car" 49; mkListed "b.car" 49])
       Fixtures.dirCid (Some "Partial"%string) (Some 14))
  = Some Attempt.
Proof.
  apply (more_stored_keeps_attempt
           (Fixtures.world Fixtures.dirPartCar ∅ [mkListed "a.car" 49])
           (Fixtures.world Fixtures.dirPartCar ∅
              [mkListed "a.car" 49; mkListed "b.car" 49])
           Fixtures.dirCid (Some "Partial"%string) (Some 14)
           [mkListed "a.car" 49] [mkListed "b.car" 49]);
    try reflexivity.
  repeat constructor. simpl. lia.
Defined.

(** ** The walk and the blocks of the archive *)

Lemma findBlock_app (blocks extra : list Block) (c : CID) (b : Block) :
  Car.findBlock blocks c = Some b -> Car.findBlock (blocks ++ extra) c = Some b.
Proof.
  unfold Car.findBlock. induction blocks as [|x blocks IH]; simpl;
    [discriminate|].
  destruct (equals (cid x) c); auto.
Qed.

Lemma forLinks_extend (r1 r2 : Block -> Outcome bool) (blocks extra : list Block)
    (ls : list CID) :
  (forall b, r1 b = Ok true -> r2 b = Ok true) ->
  Car.forLinks r1 blocks ls = Ok true ->
  Car.forLinks r2 (blocks ++ extra) ls = Ok true.
Proof.
  intros Hr. induction ls as [|l ls IH]; simpl; [auto|].
  destruct (Car.findBlock blocks l) as [b|] eqn:Hl; [|discriminate].
  rewrite (findBlock_app blocks extra l b Hl).
  destruct (r1 b) as [[|]|e] eqn:H1; simpl; try discriminate.
  rewrite (Hr b H1). simpl. exact IH.
Qed.

Lemma iterateDag_extend (lib : Library) (stack : nat) (b : Block)
    (blocks extra : list Block) :
  Car.iterateDag lib stack b blocks = Ok true ->
  Car.iterateDag lib stack b (blocks ++ extra) = Ok true.
Proof.
  revert b. induction stack as [|stack IH]; intros b; simpl; [discriminate|].
  destruct (Car.findDecoder lib (code (cid b))) as [d|]; [|discriminate].
  destruct (decode d (block_bytes b)) as [v|]; simpl; [|discriminate].
  apply forLinks_extend. exact IH.
Qed.

(** X9.  Blocks that follow in the archive never take a [Complete] away:
    if an archive is inspected as [Complete], the archive with further
    blocks within the limit after its own is inspected with the same
    result, given a call stack of at least one frame. *)
Theorem complete_stays_complete (lib : Library) (stack : nat) (root : CID)
    (it it' : CarBlockIterator) (r : Car.Inspection) (extra : list Block) :
  (1 <= stack)%nat ->
  Car.inspectCarBlocks lib stack root it = Ok r ->
  Car.structure r = Some "Complete"%string ->
  yields it' = yields it ++ extra -> Forall small extra -> breaks it' = false ->
  Car.inspectCarBlocks lib stack root it' = Ok r.
Proof.
  intros Hstack Hr Hcomplete Hy Hextra Hbr'.
  pose proof (inspectCarBlocks_Ok _ _ _ _ _ Hr)
    as (Hall & Hbr & Hrc & rawRoot & Hroot & Hd).
  pose proof (findBlock_Some _ _ _ Hroot) as [Hcid _].
  assert (Hall' : Forall small (yields it'))
    by (rewrite Hy; apply Forall_app; auto).
  assert (Hroot' : Car.findBlock (yields it') root = Some rawRoot)
    by (rewrite Hy; apply findBlock_app; exact Hroot).
  destruct (Car.findDecoder lib (code root)) as [d|] eqn:Hfind;
    [|destruct Hd as [Hnone _]; congruence].
  destruct Hd as (v & Hv & _ & Hwalk).
  assert (Hls : Dag.blockLinks lib rawRoot = Some (links v))
    by (unfold Dag.blockLinks; rewrite Hcid, Hfind, Hv; reflexivity).
  assert (Hwalk' : Car.iterateDag lib stack rawRoot (yields it') = Ok true).
  { rewrite Hy. destruct Hwalk as [(_ & Hraw & _)|(_ & c & Hc & Hs)].
    - destruct stack as [|stack]; [lia|].
      rewrite <- Hcid in Hraw.
      rewrite (iterateDag_step lib stack rawRoot _ [] (raw_no_links lib _ Hraw)).
      reflexivity.
    - apply iterateDag_extend. destruct c; [exact Hc|].
      rewrite Hcomplete in Hs. discriminate Hs. }
  destruct (inspectCarBlocks_readable lib stack root it' rawRoot (links v)
              Hall' Hbr' Hroot' Hls) as (sz & Hrun).
  rewrite Hwalk' in Hrun. simpl in Hrun.
  assert (Hrun' : Car.inspectCarBlocks lib stack root it'
                  = Ok (Car.mkInspection root (Some "Complete"%string) sz))
    by (rewrite Hrun; destruct (_ && _); reflexivity).
  rewrite Hrun'. f_equal.
  destruct r as [rc rs rsz]; simpl in *. subst rc rs. f_equal.
  destruct (inspectCarBlocks_size _ _ _ _ _ Hr) as (b1 & Hb1 & Hsz1).
  destruct (inspectCarBlocks_size _ _ _ _ _ Hrun') as (b2 & Hb2 & Hsz2).
  rewrite Hroot in Hb1. injection Hb1 as <-.
  rewrite Hroot' in Hb2. injection Hb2 as <-.
  simpl in Hsz1, Hsz2.
  destruct Hsz1 as [(Hpb & n1 & Hn1 & ->)|[Hnpb ->]];
    destruct Hsz2 as [(Hpb' & n2 & Hn2 & ->)|[Hnpb' ->]];
    try contradiction; [|reflexivity].
  rewrite Hn1 in Hn2. injection Hn2 as <-. reflexivity.
Qed.

Lemma complete_stays_complete_witness :
  Car.inspectCarBlocks Fixtures.lib 8 Fixtures.dirCid
    (mkIterator [Fixtures.dirCid]
       [Fixtures.dir; Fixtures.leaf; Fixtures.json] false)
  = Ok (Car.mkInspection Fixtures.dirCid (Some "Complete"%string) (Some 14)).
Proof.
  apply (complete_stays_complete Fixtures.lib 8 Fixtures.dirCid
           Fixtures.dirIterator
           (mkIterator [Fixtures.dirCid]
              [Fixtures.dir; Fixtures.leaf; Fixtures.json] false)
           (Car.mkInspection Fixtures.dirCid (Some "Complete"%string) (Some 14))
           [Fixtures.json]); try reflexivity.
  - lia.
  - repeat constructor. vm_compute. discriminate.
Defined.

(** X10.  The walk has no guard against cycles.  In a set of blocks each
    of which can be read and has a first link that leads to a block of the
    set again, the walk from any of them returns no answer: with any call
    stack it ends in [RangeError]. *)
Theorem cycle_exhausts_stack (lib : Library) (blocks : list Block)
    (inCycle : Block -> Prop) :
  (forall b, inCycle b ->
     exists l rest b',
       Dag.blockLinks lib b = Some (l :: rest)
       /\ Car.findBlock blocks l = Some b' /\ inCycle b') ->
  forall (stack : nat) (b : Block),
    inCycle b -> Car.iterateDag lib stack b blocks = Throw RangeError.
Proof.
  intros Hcycle stack. induction stack as [|stack IH]; intros b Hb;
    [reflexivity|].
  destruct (Hcycle b Hb) as (l & rest & b' & Hls & Hl & Hb').
  rewrite (iterateDag_step lib stack b blocks _ Hls). simpl.
  rewrite Hl, (IH b' Hb'). reflexivity.
Qed.

Lemma cycle_exhausts_stack_witness :
  Car.iterateDag Loop.lib 1000 Loop.loop (yields Loop.loopIterator)
  = Throw RangeError
  /\ Car.inspectCarBlocks Loop.lib 1000 Loop.loopCid Loop.loopIterator
     = Throw RangeError.
Proof.
  split.
  - apply (cycle_exhausts_stack Loop.lib (yields Loop.loopIterator)
             (fun b => b = Loop.loop)); [|reflexivity].
    intros b ->. exists Loop.loopCid, [], Loop.loop.
    split; [reflexivity|]. split; reflexivity.
  - vm_compute. reflexivity.
Defined.

Lemma findBlock_NoDup (blocks : list Block) (c : CID) (b : Block) :
  NoDup (cid <$> blocks) -> b ∈ blocks -> cid b = c ->
  Car.findBlock blocks c = Some b.
Proof.
  unfold Car.findBlock.
  induction blocks as [|x blocks IH]; intros Hnd Hin Hc; [inversion Hin|].
  apply NoDup_cons in Hnd as [Hx Hnd]. simpl.
  apply elem_of_cons in Hin as [->|Hin].
  - rewrite (proj2 (equals_true (cid x) c) Hc). reflexivity.
  - destruct (equals (cid x) c) eqn:Heq; [|auto].
    apply equals_true in Heq. exfalso. apply Hx.
    rewrite Heq, <- Hc. apply list_elem_of_fmap. eauto.
Qed.

Lemma findBlock_Permutation (blocks blocks' : list Block) (c : CID) :
  NoDup (cid <$> blocks) -> blocks ≡ₚ blocks' ->
  Car.findBlock blocks c = Car.findBlock blocks' c.
Proof.
  intros Hnd Hperm.
  assert (Hnd' : NoDup (cid <$> blocks')) by (rewrite <- Hperm; exact Hnd).
  destruct (Car.findBlock blocks c) as [b|] eqn:Hb.
  - apply findBlock_Some in Hb as [Hc Hin]. symmetry.
    apply findBlock_NoDup; auto. now rewrite <- Hperm.
  - destruct (Car.findBlock blocks' c) as [b'|] eqn:Hb'; [|reflexivity].
    apply findBlock_Some in Hb' as [Hc Hin]. rewrite <- Hperm in Hin.
    rewrite (findBlock_NoDup blocks c b' Hnd Hin Hc) in Hb. discriminate Hb.
Qed.

Lemma forLinks_ext (r1 r2 : Block -> Outcome bool) (blocks blocks' : list Block)
    (ls : list CID) :
  (forall c, Car.findBlock blocks c = Car.findBlock blocks' c) ->
  (forall b, r1 b = r2 b) ->
  Car.forLinks r1 blocks ls = Car.forLinks r2 blocks' ls.
Proof.
  intros Hfind Hr. induction ls as [|l ls IH]; simpl; [reflexivity|].
  rewrite <- Hfind. destruct (Car.findBlock blocks l) as [b|]; [|reflexivity].
  rewrite <- Hr. destruct (r1 b) as [[|]|]; simpl; auto.
Qed.

(** The walk sees the archive only through the lookup of a link. *)
Lemma iterateDag_ext (lib : Library) (stack : nat) (b : Block)
    (blocks blocks' : list Block) :
  (forall c, Car.findBlock blocks c = Car.findBlock blocks' c) ->
  Car.iterateDag lib stack b blocks = Car.iterateDag lib stack b blocks'.
Proof.
  intros Hfind. revert b. induction stack as [|stack IH]; intros b; simpl;
    [reflexivity|].
  destruct (Car.findDecoder lib (code (cid b))) as [d|]; [|reflexivity].
  destruct (decode d (block_bytes b)) as [v|]; simpl; [|reflexivity].
  apply forLinks_ext; auto.
Qed.

Lemma forAwaitBlocks_small (root : CID) (it : CarBlockIterator) :
  Forall small (yields it) ->
  Car.forAwaitBlocks root it
  = if breaks it then Throw InvalidCAR
    else Ok (Car.findBlock (yields it) root, yields it).
Proof.
  intros Hall. destruct (breaks it) eqn:Hbr.
  - destruct (Car.forAwaitBlocks root it) as [st|e] eqn:Hloop.
    + apply forAwaitBlocks_inv in Hloop as (_ & Hbr' & _). congruence.
    + apply forAwaitBlocks_Throw in Hloop as [[-> _]|(b & Hin & Hbig & _)];
        [reflexivity|].
      rewrite Forall_forall in Hall. specialize (Hall b Hin).
      unfold small in Hall. lia.
  - apply forAwaitBlocks_Ok; assumption.
Qed.

(** X11.  When the blocks of an archive are within the limit and carry
    distinct identifiers, the order in which the archive holds them does
    not matter: the inspection of a rearrangement of the same blocks
    returns the same result or throws the same error. *)
Theorem block_order_irrelevant (lib : Library) (stack : nat) (root : CID)
    (it it' : CarBlockIterator) :
  Forall small (yields it) -> NoDup (cid <$> yields it) ->
  yields it ≡ₚ yields it' -> breaks it = breaks it' ->
  Car.inspectCarBlocks lib stack root it = Car.inspectCarBlocks lib stack root it'.
Proof.
  intros Hall Hnd Hperm Hbr.
  assert (Hall' : Forall small (yields it')) by (rewrite <- Hperm; exact Hall).
  pose proof (fun c => findBlock_Permutation _ _ c Hnd Hperm) as Hfind.
  unfold Car.inspectCarBlocks.
  rewrite (forAwaitBlocks_small root it Hall),
    (forAwaitBlocks_small root it' Hall'), <- Hbr.
  destruct (breaks it); [reflexivity|]. simpl.
  rewrite <- (Permutation_length Hperm), <- Hfind.
  case_bool_decide; [reflexivity|].
  destruct (Car.findBlock (yields it) root) as [rawRoot|]; [|reflexivity].
  destruct (Car.findDecoder lib (code root)) as [d|]; [|reflexivity].
  destruct (decode d (block_bytes rawRoot)) as [v|]; [|reflexivity]. simpl.
  match goal with |- ?m ≫= _ = _ => destruct m as [sz|e] end;
    [|reflexivity].
  simpl. destruct (_ && _); [reflexivity|].
  rewrite (iterateDag_ext lib stack rawRoot _ _ Hfind). reflexivity.
Qed.

Lemma block_order_irrelevant_witness :
  Car.inspectCarBlocks Fixtures.lib 8 Fixtures.dirCid Fixtures.dirIterator
  = Car.inspectCarBlocks Fixtures.lib 8 Fixtures.dirCid
      (mkIterator [Fixtures.dirCid] [Fixtures.leaf; Fixtures.dir] false).
Proof.
  apply (block_order_irrelevant Fixtures.lib 8 Fixtures.dirCid
           Fixtures.dirIterator
           (mkIterator [Fixtures.dirCid] [Fixtures.leaf; Fixtures.dir] false)).
  - repeat constructor; vm_compute; discriminate.
  - apply NoDup_cons. split; [|apply NoDup_singleton].
    intros Hin%list_elem_of_singleton. vm_compute in Hin. discriminate Hin.
  - apply Permutation_swap.
  - reflexivity.
Defined.

Lemma readBlocks_first_oversized (root : CID) (pre post : list Block)
    (b : Block) (rawRootBlock : option Block) (blocks : list Block) :
  Forall small pre -> byteLength (block_bytes b) > Car.MAX_BLOCK_SIZE ->
  Car.readBlocks root (pre ++ b :: post) rawRootBlock blocks
  = Throw (BlockTooBig (byteLength (block_bytes b))).
Proof.
  intros Hpre Hbig. revert rawRootBlock blocks.
  induction Hpre as [|x pre Hx _ IH]; intros rawRootBlock blocks; simpl.
  - rewrite bool_decide_eq_true_2 by exact Hbig. reflexivity.
  - unfold small in Hx. rewrite bool_decide_eq_false_2 by lia. apply IH.
Qed.

(** X12.  Which failure of the loop is reported.  The first block over
    the limit decides: the inspection throws [block too big] with that
    block's length, whatever follows it, whether or not the archive holds
    the root block, and whether or not the reader fails later.  And when
    every block read is within the limit but the reader fails, the
    inspection throws the reader's error, root block or not. *)
Theorem loop_failure_reported (lib : Library) (stack : nat) (root : CID)
    (it : CarBlockIterator) :
  (forall (pre post : list Block) (b : Block),
      yields it = pre ++ b :: post -> Forall small pre ->
      byteLength (block_bytes b) > 1048576 ->
      Car.inspectCarBlocks lib stack root it
      = Throw (BlockTooBig (byteLength (block_bytes b))))
  /\ (Forall small (yields it) -> breaks it = true ->
      Car.inspectCarBlocks lib stack root it = Throw InvalidCAR).
Proof.
  split.
  - intros pre post b Hy Hpre Hbig.
    unfold Car.inspectCarBlocks, Car.forAwaitBlocks. rewrite Hy.
    rewrite (readBlocks_first_oversized root pre post b None [] Hpre)
      by (change Car.MAX_BLOCK_SIZE with 1048576; exact Hbig).
    reflexivity.
  - intros Hall Hbr. unfold Car.inspectCarBlocks.
    rewrite (forAwaitBlocks_small root it Hall), Hbr. reflexivity.
Qed.

Lemma loop_failure_reported_witness :
  Car.inspectCarBlocks Fixtures.lib 8 Fixtures.dirCid
    (mkIterator [Fixtures.dirCid]
       [Fixtures.leaf; Fixtures.oversized; Fixtures.dir] true)
  = Throw (BlockTooBig (byteLength (block_bytes Fixtures.oversized)))
  /\ Car.inspectCarBlocks Fixtures.lib 8 Fixtures.dirCid
       (mkIterator [Fixtures.dirCid] [Fixtures.dir] true)
     = Throw InvalidCAR.
Proof.
  split.
  - apply (proj1 (loop_failure_reported Fixtures.lib 8 Fixtures.dirCid
                    (mkIterator [Fixtures.dirCid]
                       [Fixtures.leaf; Fixtures.oversized; Fixtures.dir] true))
             [Fixtures.leaf] [Fixtures.dir] Fixtures.oversized).
    + reflexivity.
    + repeat constructor. vm_compute. discriminate.
    + unfold Fixtures.oversized, byteLength. cbn [block_bytes].
      rewrite length_replicate. lia.
  - apply (proj2 (loop_failure_reported Fixtures.lib 8 Fixtures.dirCid
                    (mkIterator [Fixtures.dirCid] [Fixtures.dir] true))).
    + repeat constructor. vm_compute. discriminate.
    + reflexivity.
Defined.

(** X13.  A root block whose bytes its decoder refuses is an error, not a
    verdict: for an archive that passes the checks of the loop and holds a
    block for its root, the inspection throws the error of the dag-pb
    decoder when the root is dag-pb and its bytes do not decode, and that
    of the dag-cbor decoder when the root is dag-cbor and its bytes do not
    decode. *)
Theorem undecodable_root (lib : Library) (stack : nat) (root : CID)
    (it : CarBlockIterator) (rawRoot : Block) :
  Forall small (yields it) -> breaks it = false ->
  Car.findBlock (yields it) root = Some rawRoot ->
  (code root = pb_code -> pb_decode lib (block_bytes rawRoot) = None ->
   Car.inspectCarBlocks lib stack root it = Throw (DecodeError pb_code))
  /\ (code root = cbor_code -> cbor_decode lib (block_bytes rawRoot) = None ->
      Car.inspectCarBlocks lib stack root it = Throw (DecodeError cbor_code)).
Proof.
  intros Hall Hbr Hroot.
  pose proof (findBlock_Some _ _ _ Hroot) as [_ Hin].
  assert (Hrun : forall d e,
            Car.findDecoder lib (code root) = Some d ->
            decode d (block_bytes rawRoot) = Throw e ->
            Car.inspectCarBlocks lib stack root it = Throw e).
  { intros d e Hd He. unfold Car.inspectCarBlocks.
    rewrite (forAwaitBlocks_Ok root it Hall Hbr). simpl.
    rewrite bool_decide_eq_false_2
      by (destruct (yields it); [inversion Hin | discriminate]).
    rewrite Hroot, Hd, He. reflexivity. }
  split; intros Hcode Hnone.
  - apply (Hrun (Car.pb lib)); [rewrite Hcode; reflexivity|].
    simpl. rewrite Hnone. reflexivity.
  - apply (Hrun (Car.cbor lib)); [rewrite Hcode; reflexivity|].
    simpl. rewrite Hnone. reflexivity.
Qed.

Lemma undecodable_root_witness :
  Car.inspectCarBlocks Fixtures.lib 8 Fixtures.dirCid
    (mkIterator [Fixtures.dirCid]
       [mkBlock Fixtures.dirCid (Fixtures.hex [0xff]%N)] false)
  = Throw (DecodeError pb_code).
Proof.
  apply (proj1 (undecodable_root Fixtures.lib 8 Fixtures.dirCid
                  (mkIterator [Fixtures.dirCid]
                     [mkBlock Fixtures.dirCid (Fixtures.hex [0xff]%N)] false)
                  (mkBlock Fixtures.dirCid (Fixtures.hex [0xff]%N))
                  ltac:(repeat constructor; vm_compute; discriminate)
                  eq_refl eq_refl));
    reflexivity.
Defined.

(** X14.  An error inside the walk reaches the caller unchanged.  When the
    walk of a link's block throws and the links before it were walked as
    complete, the walk of the linking block throws the same error; and
    when the walk of the root block throws, so does the inspection, unless
    the archive is the single raw block that is not walked at all. *)
Theorem walk_error_aborts (lib : Library) (stack : nat) (root : CID)
    (it : CarBlockIterator) (e : Error) :
  (forall (parent child : Block) (pre post : list CID) (l : CID),
      Dag.blockLinks lib parent = Some (pre ++ l :: post) ->
      (forall p, p ∈ pre ->
         exists bp, Car.findBlock (yields it) p = Some bp
                    /\ Car.iterateDag lib stack bp (yields it) = Ok true) ->
      Car.findBlock (yields it) l = Some child ->
      Car.iterateDag lib stack child (yields it) = Throw e ->
      Car.iterateDag lib (S stack) parent (yields it) = Throw e)
  /\ (forall (rawRoot : Block) (ls : list CID),
        Forall small (yields it) -> breaks it = false ->
        Car.findBlock (yields it) root = Some rawRoot ->
        Dag.blockLinks lib rawRoot = Some ls ->
        ~ (length (yields it) = 1%nat /\ code root = raw_code) ->
        Car.iterateDag lib stack rawRoot (yields it) = Throw e ->
        Car.inspectCarBlocks lib stack root it = Throw e).
Proof.
  split.
  - intros parent child pre post l Hls Hpre Hl Hchild.
    rewrite (iterateDag_step lib stack parent (yields it) _ Hls).
    rewrite forLinks_complete_prefix by exact Hpre.
    cbn [Car.forLinks]. rewrite Hl, Hchild. reflexivity.
  - intros rawRoot ls Hall Hbr Hroot Hls Hnot Hwalk.
    destruct (inspectCarBlocks_readable lib stack root it rawRoot ls
                Hall Hbr Hroot Hls) as (sz & ->).
    rewrite Hwalk.
    destruct (bool_decide (length (yields it) = 1%nat)
              && bool_decide (code root = raw_code)) eqn:Hone;
      [|reflexivity].
    apply andb_true_iff in Hone as [H1%bool_decide_eq_true H2%bool_decide_eq_true].
    tauto.
Qed.

Lemma walk_error_aborts_witness :
  Car.iterateDag Fixtures.lib 8 Fixtures.jdir (yields Fixtures.jdirIterator)
  = Throw TypeError.
Proof.
  apply (proj1 (walk_error_aborts Fixtures.lib 7 Fixtures.jdirCid
                  Fixtures.jdirIterator TypeError)
           Fixtures.jdir Fixtures.json [] [] Fixtures.jsonCid).
  - reflexivity.
  - intros p Hp. inversion Hp.
  - reflexivity.
  - reflexivity.
Defined.

(** ** The gateway URL (config.js) *)

Lemma append_length (a b : string) :
  String.length (a +:+ b) = (String.length a + String.length b)%nat.
Proof.
  induction a as [|c a IH]; [reflexivity|].
  rewrite append_cons. simpl. now rewrite IH.
Qed.

Lemma append_inj_tail (a1 a2 b : string) :
  (a1 +:+ b = a2 +:+ b)%string -> a1 = a2.
Proof.
  revert a2. induction a1 as [|c a1 IH]; intros [|c' a2] H.
  - reflexivity.
  - apply (f_equal String.length) in H.
    rewrite !append_length in H. simpl in H. lia.
  - apply (f_equal String.length) in H.
    rewrite !append_length in H. simpl in H. lia.
  - rewrite !append_cons in H. injection H as -> H. f_equal. apply IH, H.
Qed.

(** X15.  Two roots that normalize to different strings are never probed
    under the same URL, in either style of URL: if
    [getIpfsGatewayUrlForCid] returns for both, the two URLs differ. *)
Theorem gateway_url_injective (gateway useIpfsPath : option string)
    (cidToString : CID -> string) (normalizeCid : string -> Outcome string)
    (newURL : string -> option string -> Outcome string)
    (cid1 cid2 : CID) (n1 n2 u1 u2 : string) :
  normalizeCid (cidToString cid1) = Ok n1 ->
  normalizeCid (cidToString cid2) = Ok n2 ->
  n1 <> n2 ->
  Config.getIpfsGatewayUrlForCid gateway useIpfsPath cidToString normalizeCid
    newURL cid1 = Ok u1 ->
  Config.getIpfsGatewayUrlForCid gateway useIpfsPath cidToString normalizeCid
    newURL cid2 = Ok u2 ->
  u1 <> u2.
Proof.
  intros H1 H2 Hne. unfold Config.getIpfsGatewayUrlForCid.
  rewrite H1, H2. simpl.
  destruct (Config.truthy useIpfsPath).
  - destruct (newURL "ipfs"%string gateway) as [base|e]; simpl; [|discriminate].
    intros [= <-] [= <-] Heq. apply Hne.
    apply (inj (String.app base)) in Heq.
    apply (inj (String.app "/")) in Heq. exact Heq.
  - intros [= <-] [= <-] Heq. apply Hne.
    apply (inj (String.app "https://")) in Heq.
    apply append_inj_tail in Heq. exact Heq.
Qed.

Lemma gateway_url_injective_witness :
  "https://bafkqaaqvd4.ipfs.dweb.link"%string
  <> "https://bafyaadasbifamakvaabbkhyyai.ipfs.dweb.link"%string.
Proof.
  apply (gateway_url_injective (Some "ipfs.dweb.link"%string) None
           (fun c => if bool_decide (c = Fixtures.leafCid)
                     then "bafkqaaqvd4"%string
                     else "bafyaadasbifamakvaabbkhyyai"%string)
           (fun s => Ok s) (fun _ _ => Throw TypeError)
           Fixtures.leafCid Fixtures.dirCid
           "bafkqaaqvd4" "bafyaadasbifamakvaabbkhyyai");
    try reflexivity.
  discriminate.
Defined.

(** ** Metadata and size, seen from the handler *)

(** X16.  For an archive whose root has one of the three codecs, the
    metadata of the object play no part: [inspectCar] returns the same
    result or throws the same error whatever they hold, and so the handler
    runs the same against two stores that differ in the metadata only. *)
Theorem supported_root_ignores_metadata (lib : Library) (stack : nat)
    (body : bytes) (root : CID) (it : CarBlockIterator)
    (metadata metadata' : gmap string string) :
  Car.carStat lib body = Ok (root, it) -> supported (code root) ->
  Index.inspectCar lib stack body metadata
  = Index.inspectCar lib stack body metadata'
  /\ (forall listing answers,
        Index.main lib (mkWorld (Ok (body, metadata)) listing answers) stack
        = Index.main lib (mkWorld (Ok (body, metadata')) listing answers) stack).
Proof.
  intros Hstat Hc.
  assert (Hsame : Index.inspectCar lib stack body metadata
                  = Index.inspectCar lib stack body metadata').
  { unfold Index.inspectCar. rewrite Hstat. simpl.
    destruct (Car.inspectCarBlocks lib stack root it) as [r|e] eqn:Hr;
      [|reflexivity].
    simpl. apply inspectCarBlocks_Ok in Hr as (_ & _ & _ & rawRoot & _ & Hd).
    destruct (Car.findDecoder lib (code root)) as [d|] eqn:Hfind.
    - destruct Hd as (v & _ & _ & [(_ & _ & ->)|(_ & [|] & _ & ->)]);
        reflexivity.
    - apply findDecoder_None in Hfind. contradiction. }
  split; [exact Hsame|].
  intros listing answers. rewrite !main_run. simpl. rewrite Hsame.
  destruct (Index.inspectCar lib stack body metadata') as [[[root' s] sz]|e];
    [|reflexivity].
  rewrite !decide_run. reflexivity.
Qed.

Lemma supported_root_ignores_metadata_witness :
  Index.inspectCar Fixtures.lib 8 Fixtures.dirPartCar
    {[ "structure"%string := "Complete"%string ]}
  = Index.inspectCar Fixtures.lib 8 Fixtures.dirPartCar ∅.
Proof.
  apply (supported_root_ignores_metadata Fixtures.lib 8 Fixtures.dirPartCar
           Fixtures.dirCid Fixtures.dirPartIterator
           {[ "structure"%string := "Complete"%string ]} ∅).
  - reflexivity.
  - left. reflexivity.
Defined.

Lemma total_declared_nonneg (ls : list PBLink) :
  Forall (fun l => 0 <= declaredSize l) ls -> 0 <= total (declaredSize <$> ls).
Proof.
  induction 1 as [|l ls Hl _ IH]; [reflexivity|].
  change (0 <= declaredSize l + total (declaredSize <$> ls)). lia.
Qed.

(** X17.  A dag-pb root block of at least one byte, whose links declare
    sizes of 0 or more, gives a size that is a number above 0 and at least
    the length of the block: the test [!size] of the policy is false for
    it, so the policy goes on to the ceiling. *)
Theorem pb_root_size_positive (lib : Library) (stack : nat) (root : CID)
    (it : CarBlockIterator) (r : Car.Inspection) (rawRoot : Block)
    (node : PBNode) :
  Car.inspectCarBlocks lib stack root it = Ok r ->
  code root = pb_code ->
  Car.findBlock (yields it) root = Some rawRoot ->
  pb_decode lib (block_bytes rawRoot) = Some node ->
  block_bytes rawRoot <> [] ->
  Forall (fun l => 0 <= declaredSize l) (Links node) ->
  exists n : Z,
    Car.size r = Some n /\ 0 < n /\ byteLength (block_bytes rawRoot) <= n
    /\ not_ (Car.size r) = false.
Proof.
  intros Hr Hpb Hroot Hnode Hne Hsizes.
  pose proof (inspectCarBlocks_Ok _ _ _ _ _ Hr) as (Hall & _).
  pose proof (findBlock_Some _ _ _ Hroot) as [_ Hin].
  rewrite Forall_forall in Hall. specialize (Hall rawRoot Hin).
  unfold small in Hall. change Car.MAX_BLOCK_SIZE with 1048576 in Hall.
  destruct (inspectCarBlocks_size lib stack root it r Hr)
    as (b & Hb & [(_ & node' & Hnode' & Hsz)|[Hnpb _]]); [|contradiction].
  rewrite Hroot in Hb. injection Hb as <-.
  rewrite Hnode in Hnode'. injection Hnode' as <-.
  pose proof (cumulativeSize_positive (block_bytes rawRoot) node Hsizes Hne)
    as Hpos.
  assert (Hlow : byteLength (block_bytes rawRoot)
                 <= Car.cumulativeSize (block_bytes rawRoot) node).
  { apply cumulativeSize_lower; [exact Hsizes|].
    assert (1048576 <= 2 ^ 53) by (vm_compute; discriminate). lia. }
  eexists. split; [exact Hsz|]. split; [exact Hpos|]. split; [exact Hlow|].
  rewrite Hsz. simpl. apply bool_decide_eq_false. lia.
Qed.

Lemma pb_root_size_positive_witness :
  exists n : Z,
    Some 14 = Some n /\ 0 < n /\ byteLength (block_bytes Fixtures.dir) <= n
    /\ not_ (Some 14) = false.
Proof.
  apply (pb_root_size_positive Fixtures.lib 8 Fixtures.dirCid
           Fixtures.dirPartIterator
           (Car.mkInspection Fixtures.dirCid (Some "Partial"%string) (Some 14))
           Fixtures.dir Fixtures.dirNode); try reflexivity.
  - discriminate.
  - repeat constructor. vm_compute. discriminate.
Defined.

(** ** The policy on what the inspection returns *)

(** Two facts about the dag-pb decoder are used below, as hypotheses on
    the library: the empty byte string decodes, if at all, to a node
    without links, and a declared size, read as a varint, is never
    negative.  The example library has both. *)
Lemma table_Some {A : Type} (t : list (bytes * A)) (b : bytes) (a : A) :
  Fixtures.table t b = Some a -> (b, a) ∈ t.
Proof.
  unfold Fixtures.table.
  destruct (find _ t) as [[b' a']|] eqn:Hfind; simpl; [|discriminate].
  intros [= <-]. apply find_some in Hfind as [Hin Heq].
  apply bool_decide_eq_true in Heq. simpl in Heq. subst b'.
  now apply list_elem_of_In.
Qed.

Lemma Fixtures_empty_no_links (node : PBNode) :
  pb_decode Fixtures.lib [] = Some node -> Links node = [].
Proof. intros H. vm_compute in H. injection H as <-. reflexivity. Qed.

Lemma Fixtures_sizes_nonneg (b : bytes) (node : PBNode) :
  pb_decode Fixtures.lib b = Some node ->
  Forall (fun l => 0 <= declaredSize l) (Links node).
Proof.
  intros H. apply table_Some in H.
  repeat (apply elem_of_cons in H as [H|H];
          [injection H as _ ->; repeat constructor; vm_compute; discriminate|]).
  inversion H.
Qed.

(** A dag-pb root of size 0 is the node of no bytes: it has no links, and
    its inspection is [Complete]. *)
Lemma zero_size_Complete (lib : Library) (stack : nat) (root : CID)
    (it : CarBlockIterator) (r : Car.Inspection) :
  (forall node, pb_decode lib [] = Some node -> Links node = []) ->
  (forall b node, pb_decode lib b = Some node ->
     Forall (fun l => 0 <= declaredSize l) (Links node)) ->
  Car.inspectCarBlocks lib stack root it = Ok r ->
  Car.size r = Some 0 ->
  code root = pb_code
  /\ (exists rawRoot, Car.findBlock (yields it) root = Some rawRoot
                      /\ block_bytes rawRoot = [])
  /\ Car.structure r = Some "Complete"%string.
Proof.
  intros Hempty Hsizes Hr Hzero.
  destruct (inspectCarBlocks_size lib stack root it r Hr)
    as (rawRoot & Hroot & [(Hpb & node & Hnode & Hsz)|[_ Hnone]]);
    [|congruence].
  rewrite Hzero in Hsz. injection Hsz as Hsz.
  assert (Hbytes : block_bytes rawRoot = []).
  { destruct (block_bytes rawRoot) as [|x bs] eqn:Hb; [reflexivity|].
    pose proof (cumulativeSize_positive (x :: bs) node
                  (Hsizes _ _ Hnode) ltac:(discriminate)). lia. }
  split; [exact Hpb|]. split; [eauto|].
  rewrite Hbytes in Hnode. pose proof (Hempty node Hnode) as Hlinks.
  pose proof (findBlock_Some _ _ _ Hroot) as [Hcid _].
  pose proof (inspectCarBlocks_Ok _ _ _ _ _ Hr)
    as (_ & _ & _ & rawRoot' & Hroot' & Hd).
  rewrite Hroot in Hroot'. injection Hroot' as <-.
  destruct (Car.findDecoder lib (code root)) as [d|] eqn:Hfind;
    [|destruct Hd as [_ Hnone]; congruence].
  destruct Hd as (v & Hv & _ & [(_ & _ & Hs)|(_ & c & Hc & Hs)]);
    [exact Hs|].
  assert (Hls : Dag.blockLinks lib rawRoot = Some []).
  { unfold Dag.blockLinks. rewrite Hcid, Hfind, Hv. f_equal.
    rewrite <- Hcid in Hfind.
    destruct (root_size lib rawRoot d v Hfind Hv)
      as [(_ & node' & Hnode' & ->)|(Hnpb & _)];
      [|rewrite Hcid in Hnpb; contradiction].
    rewrite Hbytes in Hnode'. rewrite Hnode in Hnode'. injection Hnode' as <-.
    simpl. rewrite Hlinks. reflexivity. }
  destruct stack as [|stack]; [discriminate Hc|].
  rewrite (iterateDag_step lib stack rawRoot _ [] Hls) in Hc.
  injection Hc as <-. exact Hs.
Qed.

(** The run of the handler shows the decision of the policy in it. *)
Lemma main_decision (lib : Library) (w : World) (stack : nat) (body : bytes)
    (metadata : gmap string string) (root : CID) (s : option string)
    (sz : option Z) :
  s3_getObject w = Ok (body, metadata) ->
  Index.inspectCar lib stack body metadata = Ok (root, s, sz) ->
  decision (Index.main lib w stack) = decision (Index.decide w root s sz)
  /\ listed (Index.main lib w stack) = listed (Index.decide w root s sz).
Proof.
  intros Hget Hinspect.
  rewrite (main_decide lib w stack body metadata root s sz Hget Hinspect).
  split; [reflexivity|].
  unfold listed. simpl.
  apply bool_decide_ext. rewrite elem_of_cons. intuition discriminate.
Qed.

(** C6.  Take a run in which the handler got the object, the inspection
    returned a structure other than [Complete], [Partial] in particular,
    and the store lists the directory.  If the inspection returned no
    size, no fetch is issued and the directory is not even listed.  If it
    returned a size of at most 104,857,600, a fetch is issued exactly when
    the sum of the listed sizes is at least that size, and otherwise the
    handler returns without a response. *)
Theorem partial_policy (lib : Library) (w : World) (stack : nat)
    (body : bytes) (metadata : gmap string string) (root : CID)
    (s : option string) (sz : option Z) (contents : list ListedObject) :
  (forall node, pb_decode lib [] = Some node -> Links node = []) ->
  (forall b node, pb_decode lib b = Some node ->
     Forall (fun l => 0 <= declaredSize l) (Links node)) ->
  s3_getObject w = Ok (body, metadata) ->
  Index.inspectCar lib stack body metadata = Ok (root, s, sz) ->
  s <> Some "Complete"%string ->
  s3_listObjectsV2 w = Ok contents ->
  (sz = None ->
   decision (Index.main lib w stack) = Some Defer
   /\ listed (Index.main lib w stack) = false)
  /\ (forall n : Z,
        sz = Some n -> n <= 104857600 ->
        (decision (Index.main lib w stack) = Some Attempt
         <-> total (Size <$> contents) >= n)
        /\ (decision (Index.main lib w stack) = Some Defer
            <-> total (Size <$> contents) < n)).
Proof.
  intros Hempty Hsizes Hget Hinspect Hs Hlist.
  destruct (main_decision lib w stack body metadata root s sz Hget Hinspect)
    as [-> ->].
  split.
  - intros ->. rewrite (decide_no_size w root s None Hs eq_refl).
    split; reflexivity.
  - intros n -> Hmax.
    assert (Hn0 : n <> 0).
    { intros ->.
      apply inspectCar_Ok in Hinspect as (it & r & _ & Hr & -> & Hsz).
      symmetry in Hsz.
      destruct (zero_size_Complete lib stack root it r Hempty Hsizes Hr Hsz)
        as (_ & _ & Hc).
      rewrite Hc in Hs. simpl in Hs. contradiction. }
    rewrite (decide_compare w root s n contents Hs Hn0 Hmax Hlist).
    case_bool_decide as Hcmp; unfold decision; simpl.
    + split; split; intros; try discriminate; try lia. reflexivity.
    + rewrite fetchFromGateway_calls. simpl.
      split; split; intros; try discriminate; try lia. reflexivity.
Qed.

Lemma partial_policy_witness :
  (decision
     (Index.main Fixtures.lib
        (Fixtures.world Fixtures.dirPartCar ∅
           [mkListed "a.car" 49; mkListed "b.car" 49]) 8)
   = Some Attempt
   <-> total (Size <$> [mkListed "a.car" 49; mkListed "b.car" 49]) >= 14)
  /\ (decision
        (Index.main Fixtures.lib
           (Fixtures.world Fixtures.dirPartCar ∅
              [mkListed "a.car" 49; mkListed "b.car" 49]) 8)
      = Some Defer
      <-> total (Size <$> [mkListed "a.car" 49; mkListed "b.car" 49]) < 14).
Proof.
  apply (partial_policy Fixtures.lib
           (Fixtures.world Fixtures.dirPartCar ∅
              [mkListed "a.car" 49; mkListed "b.car" 49]) 8
           Fixtures.dirPartCar ∅ Fixtures.dirCid (Some "Partial"%string)
           (Some 14) [mkListed "a.car" 49; mkListed "b.car" 49]
           Fixtures_empty_no_links Fixtures_sizes_nonneg);
    [reflexivity | reflexivity | discriminate | reflexivity | reflexivity | lia].
Defined.



